(** * fastgltf: the document decoding engine of src/fastgltf.cpp

    A shallow embedding of the glTF session ([fg::glTF]) and of its helpers:
    the array iteration helper, the data-URI resolver, the MIME classifier,
    the texture extension resolver and the eight entity parsers; and of the
    loader ([fg::Parser]) that builds a session from a file or from bytes.

    Conventions.
    - [size_t] and [uint64_t] values are [Z] in the range [0, 2^64); the
      arithmetic the source performs on them is written with its wrap-around
      ([wrap]).
    - A [simdjson_result<T>] is an [option T]: the source only ever compares
      the error code with [SUCCESS].
    - A [std::string_view] is a [string]; [std::vector<uint8_t>] is a list
      of bytes.
    - A lambda that captures by reference and returns [bool] is a function
      from the captured state to a [bool] and the new state. *)

From Stdlib Require Import ZArith Bool List Ascii String Lia.
From Stdlib Require Import Floats.SpecFloat.
From stdpp Require Import base option list strings gmap.
Import ListNotations.

Local Open Scope string_scope.
Local Open Scope Z_scope.

(** ** Machine integers *)

Definition size_t_max : Z := 2 ^ 64 - 1.

(** [std::string::npos], which is also [std::string_view::npos]. *)
Definition npos : Z := size_t_max.

(** Unsigned 64-bit wrap-around. *)
Definition wrap (z : Z) : Z := z mod 2 ^ 64.

(** ** Strings: the [std::string_view] operations the source uses *)

Definition size (s : string) : Z := Z.of_nat (String.length s).

(** [s.substr(pos, n)]: at most [n] characters from [pos], clipped at the end
    of [s].  The C++ function throws [std::out_of_range] when [pos > size];
    the model returns the empty string there, and [decodeUri_substr_in_range]
    shows that [decodeUri] never calls it so. *)
Definition substr (s : string) (pos n : Z) : string :=
  String.substring (Z.to_nat pos) (Z.to_nat (Z.min n (size s - pos))) s.

(** The scan of [s.find(c, pos)], [i] being the position of the head of
    [s]. *)
Fixpoint find_from (c : ascii) (s : string) (pos i : Z) : Z :=
  match s with
  | EmptyString => npos
  | String a s' =>
      if (pos <=? i) && Ascii.eqb a c then i else find_from c s' pos (i + 1)
  end.

(** [s.find(c, pos)]: the first position at or after [pos] that holds [c],
    [npos] when there is none. *)
Definition find (s : string) (c : ascii) (pos : Z) : Z := find_from c s pos 0.

(** Whether the character [c] occurs in [s]. *)
Fixpoint contains (c : ascii) (s : string) : bool :=
  match s with
  | EmptyString => false
  | String a s' => Ascii.eqb a c || contains c s'
  end.

(** ** Enumerations *)

Inductive Error : Type :=
| Error_None
| Error_InvalidPath
| Error_NonExistentPath
| Error_WrongExtension
| Error_InvalidJson
| Error_InvalidGltf
| Error_InvalidOrMissingAssetField.

Definition Error_eqb (a b : Error) : bool :=
  match a, b with
  | Error_None, Error_None
  | Error_InvalidPath, Error_InvalidPath
  | Error_NonExistentPath, Error_NonExistentPath
  | Error_WrongExtension, Error_WrongExtension
  | Error_InvalidJson, Error_InvalidJson
  | Error_InvalidGltf, Error_InvalidGltf
  | Error_InvalidOrMissingAssetField, Error_InvalidOrMissingAssetField => true
  | _, _ => false
  end.

Inductive DataLocation : Type :=
| DataLocation_None
| DataLocation_VectorWithMime
| DataLocation_BufferViewWithMime
| DataLocation_FilePathWithByteRange.

Definition DataLocation_eqb (a b : DataLocation) : bool :=
  match a, b with
  | DataLocation_None, DataLocation_None
  | DataLocation_VectorWithMime, DataLocation_VectorWithMime
  | DataLocation_BufferViewWithMime, DataLocation_BufferViewWithMime
  | DataLocation_FilePathWithByteRange, DataLocation_FilePathWithByteRange => true
  | _, _ => false
  end.

Inductive MimeType : Type :=
| MimeType_None
| MimeType_JPEG
| MimeType_PNG
| MimeType_KTX2
| MimeType_DDS
| MimeType_GltfBuffer
| MimeType_OctetStream.

(** Modelled from the spec: the component-type enumeration of
    fastgltf_types.hpp, which is not part of src.  The source names only
    [ComponentType::Double]; the other members follow the format's numeric
    component types. *)
Inductive ComponentType : Type :=
| ComponentType_Invalid
| ComponentType_Byte
| ComponentType_UnsignedByte
| ComponentType_Short
| ComponentType_UnsignedShort
| ComponentType_UnsignedInt
| ComponentType_Float
| ComponentType_Double.

Definition ComponentType_eqb (a b : ComponentType) : bool :=
  match a, b with
  | ComponentType_Invalid, ComponentType_Invalid
  | ComponentType_Byte, ComponentType_Byte
  | ComponentType_UnsignedByte, ComponentType_UnsignedByte
  | ComponentType_Short, ComponentType_Short
  | ComponentType_UnsignedShort, ComponentType_UnsignedShort
  | ComponentType_UnsignedInt, ComponentType_UnsignedInt
  | ComponentType_Float, ComponentType_Float
  | ComponentType_Double, ComponentType_Double => true
  | _, _ => false
  end.

(** Modelled from the spec: the element-count enumeration of
    fastgltf_types.hpp (not part of src). *)
Inductive AccessorType : Type :=
| AccessorType_Invalid
| AccessorType_Scalar
| AccessorType_Vec2
| AccessorType_Vec3
| AccessorType_Vec4
| AccessorType_Mat2
| AccessorType_Mat3
| AccessorType_Mat4.

(** ** Options

    Modelled from the spec: the [Options] flag enumeration and [hasBit] are
    declared in fastgltf_parser.hpp, which is not part of src.  The flags are
    the ones section 6 of the specification lists; each is one bit of a
    64-bit mask, and [hasBit] tests that every bit of the flag is set. *)

Definition Options : Type := Z.

Definition Options_None : Options := 0.
Definition Options_AllowDouble : Options := Z.shiftl 1 0.
Definition Options_DontRequireValidAssetMember : Options := Z.shiftl 1 1.
Definition Options_DontUseSIMD : Options := Z.shiftl 1 2.
Definition Options_LoadKTXExtension : Options := Z.shiftl 1 3.
Definition Options_LoadDDSExtension : Options := Z.shiftl 1 4.
Definition Options_IgnoreFileExtension : Options := Z.shiftl 1 5.

Definition hasBit (flags bit : Options) : bool := Z.land flags bit =? bit.

(** ** The generic JSON tree (the simdjson collaborator)

    Modelled from the spec: simdjson.h is an external library.  Section 6
    requires field lookup by name on an object, array iteration and scalar
    extraction with a success or failure result per access; the tree below
    offers exactly these.  A number literal is either an integer literal or
    a literal with a fraction or an exponent, held as the binary64 value it
    denotes. *)

#[local] Set Warnings "-register-all".

Inductive value : Type :=
| Null
| Boolean (b : bool)
| Integer (z : Z)
| Real (d : spec_float)
| Text (s : string)
| Array (elements : list value)
| Object (fields : list (string * value)).

Abbreviation array := (list value) (only parsing).
Abbreviation object := (list (string * value)) (only parsing).
Abbreviation simdjson_result := option (only parsing).

(** [object[key]] *)
Fixpoint find_field (fields : object) (key : string) : simdjson_result value :=
  match fields with
  | [] => None
  | (k, v) :: rest => if String.eqb k key then Some v else find_field rest key
  end.

(** The object without its fields named [key]: what [fields] would be if
    the key were absent.  It is used to state facts; the source has no
    such operation. *)
Fixpoint remove_field (key : string) (fields : object) : object :=
  match fields with
  | [] => []
  | (k, v) :: rest =>
      if String.eqb k key then remove_field key rest
      else (k, v) :: remove_field key rest
  end.

(** [object[key].error() == SUCCESS] *)
Definition has_field (fields : object) (key : string) : bool :=
  match find_field fields key with Some _ => true | None => false end.

Definition get_object (r : simdjson_result value) : simdjson_result object :=
  match r with Some (Object fields) => Some fields | _ => None end.

Definition get_array (r : simdjson_result value) : simdjson_result array :=
  match r with Some (Array elements) => Some elements | _ => None end.

Definition get_string (r : simdjson_result value) : simdjson_result string :=
  match r with Some (Text s) => Some s | _ => None end.

Definition get_bool (r : simdjson_result value) : simdjson_result bool :=
  match r with Some (Boolean b) => Some b | _ => None end.

Definition get_uint64 (r : simdjson_result value) : simdjson_result Z :=
  match r with
  | Some (Integer z) => if (0 <=? z) && (z <=? size_t_max) then Some z else None
  | _ => None
  end.

(** The binary64 value of an integer literal (round to nearest even). *)
Definition double_of_Z (z : Z) : spec_float := binary_normalize 53 1024 z 0 false.

Definition get_double (r : simdjson_result value) : simdjson_result spec_float :=
  match r with
  | Some (Integer z) => Some (double_of_Z z)
  | Some (Real d) => Some d
  | _ => None
  end.

(** [static_cast<float>(val)] for a [double]: rounding to binary32. *)
Definition static_cast_float (val : spec_float) : spec_float :=
  match val with
  | S754_finite s m e => binary_round 24 128 s m e
  | _ => val
  end.

(** ** The asset (fastgltf_types.hpp)

    Modelled from the spec: the declarations of the entity structs are not
    part of src; the records hold the fields the parsers of src read and
    write. *)

(** A [std::filesystem::path], kept symbolic: the empty path, or a path
    followed by the operands of [operator/]. *)
Inductive fs_path : Type :=
| path_empty
| path_of (s : string)
| path_append (p : fs_path) (s : string).

Record DataSource : Type := mkDataSource {
  bufferViewIndex : Z;
  path : fs_path;
  bytes : list Byte.byte;
  mimeType : MimeType
}.

(** [fg::DataSource {}] *)
Definition DataSource_empty : DataSource :=
  mkDataSource 0 path_empty [] MimeType_None.

Record Buffer : Type := mkBuffer {
  buffer_byteLength : Z;
  buffer_location : DataLocation;
  buffer_data : DataSource;
  buffer_name : string
}.

Record BufferView : Type := mkBufferView {
  view_bufferIndex : Z;
  view_byteOffset : Z;
  view_byteLength : Z;
  view_target : Z;
  view_name : string
}.

Record Accessor : Type := mkAccessor {
  accessor_byteOffset : Z;
  accessor_count : Z;
  accessor_type : AccessorType;
  accessor_componentType : ComponentType;
  accessor_normalized : bool;
  accessor_bufferViewIndex : Z;
  accessor_name : string
}.

Record Image : Type := mkImage {
  image_location : DataLocation;
  image_data : DataSource;
  image_name : string
}.

Record Texture : Type := mkTexture {
  imageIndex : Z;
  fallbackImageIndex : Z;
  samplerIndex : Z;
  texture_name : string
}.

Record Primitive : Type := mkPrimitive {
  attributes : gmap string Z;
  primitive_type : Z;
  indicesAccessorIndex : Z;
  materialIndex : Z
}.

Record Mesh : Type := mkMesh {
  primitives : list Primitive;
  mesh_name : string
}.

Record Node : Type := mkNode {
  meshIndex : Z;
  hasMatrix : bool;
  matrix : list spec_float;
  node_name : string
}.

Record Scene : Type := mkScene {
  nodeIndices : list Z;
  scene_name : string
}.

Record Asset : Type := mkAsset {
  buffers : list Buffer;
  bufferViews : list BufferView;
  accessors : list Accessor;
  images : list Image;
  textures : list Texture;
  meshes : list Mesh;
  nodes : list Node;
  scenes : list Scene
}.

(** [std::make_unique<Asset>()] *)
Definition Asset_empty : Asset := mkAsset [] [] [] [] [] [] [] [].

Definition emplace_buffer (x : Buffer) (a : Asset) : Asset :=
  mkAsset (buffers a ++ [x]) (bufferViews a) (accessors a) (images a)
          (textures a) (meshes a) (nodes a) (scenes a).
Definition emplace_bufferView (x : BufferView) (a : Asset) : Asset :=
  mkAsset (buffers a) (bufferViews a ++ [x]) (accessors a) (images a)
          (textures a) (meshes a) (nodes a) (scenes a).
Definition emplace_accessor (x : Accessor) (a : Asset) : Asset :=
  mkAsset (buffers a) (bufferViews a) (accessors a ++ [x]) (images a)
          (textures a) (meshes a) (nodes a) (scenes a).
Definition emplace_image (x : Image) (a : Asset) : Asset :=
  mkAsset (buffers a) (bufferViews a) (accessors a) (images a ++ [x])
          (textures a) (meshes a) (nodes a) (scenes a).
Definition emplace_texture (x : Texture) (a : Asset) : Asset :=
  mkAsset (buffers a) (bufferViews a) (accessors a) (images a)
          (textures a ++ [x]) (meshes a) (nodes a) (scenes a).
Definition emplace_mesh (x : Mesh) (a : Asset) : Asset :=
  mkAsset (buffers a) (bufferViews a) (accessors a) (images a)
          (textures a) (meshes a ++ [x]) (nodes a) (scenes a).
Definition emplace_node (x : Node) (a : Asset) : Asset :=
  mkAsset (buffers a) (bufferViews a) (accessors a) (images a)
          (textures a) (meshes a) (nodes a ++ [x]) (scenes a).
Definition emplace_scene (x : Scene) (a : Asset) : Asset :=
  mkAsset (buffers a) (bufferViews a) (accessors a) (images a)
          (textures a) (meshes a) (nodes a) (scenes a ++ [x]).

(** ** The session ([fg::glTF])

    [root] is [data->root]; [parsedAsset] is the [std::unique_ptr<Asset>],
    [None] being the null pointer. *)

Record glTF : Type := mkGlTF {
  root : list (string * value);
  directory : fs_path;
  options : Options;
  errorCode : Error;
  parsedAsset : option Asset
}.

(** The constructor [fg::glTF::glTF]. *)
Definition glTF_new (data : list (string * value)) (dir : fs_path) (opts : Options) : glTF :=
  mkGlTF data dir opts Error_None (Some Asset_empty).

Definition set_errorCode (e : Error) (g : glTF) : glTF :=
  mkGlTF (root g) (directory g) (options g) e (parsedAsset g).

(** [parsedAsset->... .emplace_back(...)] on a session that holds its
    asset.  After the asset has been moved out by [getParsedAsset] the
    pointer is null and the C++ dereference is undefined behaviour: there
    the model is not the code, it leaves the null pointer as it is.  What
    is stated below about the asset is stated for sessions that hold it. *)
Definition update_asset (f : Asset -> Asset) (g : glTF) : glTF :=
  mkGlTF (root g) (directory g) (options g) (errorCode g) (f <$> parsedAsset g).

(** ** Helpers *)

(** [fg::getImageIndexForExtension]: the tuple is
    (invalidGltf, extensionNotPresent, imageIndex). *)
Definition getImageIndexForExtension (obj : list (string * value)) (extension : string)
  : bool * bool * Z :=
  match get_object (find_field obj extension) with
  | None => (false, true, 0)
  | Some sourceExtensionObject =>
      match get_uint64 (find_field sourceExtensionObject "source") with
      | None => (true, false, 0)
      | Some imageIndex => (false, false, imageIndex)
      end
  end.

Section iterateOverArray.
Context {St : Type}.
Variable callback : value -> St -> bool * St.

(** The loop [for (auto field : array)] of [fg::iterateOverArray]. *)
Fixpoint iterate_fields (elements : list value) (st : St) : (bool * Error) * St :=
  match elements with
  | [] => ((true, Error_None), st)
  | field :: rest =>
      let (ok, st') := callback field st in
      if ok then iterate_fields rest st'
      else ((false, Error_InvalidGltf), st')
  end.

(** [fg::iterateOverArray] *)
Definition iterateOverArray (parent : list (string * value)) (arrayName : string) (st : St)
  : (bool * Error) * St :=
  match get_array (find_field parent arrayName) with
  | None => ((false, Error_None), st)
  | Some elements => iterate_fields elements st
  end.
End iterateOverArray.

Definition set_imageIndex (i : Z) (t : Texture) : Texture :=
  mkTexture i (fallbackImageIndex t) (samplerIndex t) (texture_name t).

(** [fg::parseTextureExtensions]; the texture is passed by reference. *)
Definition parseTextureExtensions (texture : Texture) (extensions : list (string * value))
    (opts : Options) : bool * Texture :=
  let ktx :=
    if hasBit opts Options_LoadKTXExtension then
      let '(invalidGltf, extensionNotPresent, index) :=
        getImageIndexForExtension extensions "KHR_texture_basisu" in
      if invalidGltf then Some (false, texture)
      else if negb extensionNotPresent then Some (true, set_imageIndex index texture)
      else None
    else None in
  match ktx with
  | Some r => r
  | None =>
      let dds :=
        if hasBit opts Options_LoadDDSExtension then
          let '(invalidGltf, extensionNotPresent, index) :=
            getImageIndexForExtension extensions "MSFT_texture_dds" in
          if invalidGltf then Some (false, texture)
          else if negb extensionNotPresent then Some (true, set_imageIndex index texture)
          else None
        else None in
      match dds with
      | Some r => r
      | None => (false, texture)
      end
  end.

Definition mimeTypeJpeg : string := "image/jpeg".
Definition mimeTypePng : string := "image/png".
Definition mimeTypeKtx : string := "image/ktx2".
Definition mimeTypeDds : string := "image/vnd-ms.dds".
Definition mimeTypeGltfBuffer : string := "application/gltf-buffer".
Definition mimeTypeOctetStream : string := "application/octet-stream".

(** [fg::glTF::getMimeTypeFromString] *)
Definition getMimeTypeFromString (mime : string) : MimeType :=
  if String.eqb mime mimeTypeJpeg then MimeType_JPEG
  else if String.eqb mime mimeTypePng then MimeType_PNG
  else if String.eqb mime mimeTypeKtx then MimeType_KTX2
  else if String.eqb mime mimeTypeDds then MimeType_DDS
  else if String.eqb mime mimeTypeGltfBuffer then MimeType_GltfBuffer
  else if String.eqb mime mimeTypeOctetStream then MimeType_OctetStream
  else MimeType_None.

(** [fg::glTF::getParsedAsset]: the result and the session afterwards;
    [std::move] leaves the session's pointer null. *)
Definition getParsedAsset (g : glTF) : option Asset * glTF :=
  if negb (Error_eqb (errorCode g) Error_None) then (None, g)
  else (parsedAsset g,
        mkGlTF (root g) (directory g) (options g) (errorCode g) None).

(** [fg::glTF::getParsedAssetPointer] *)
Definition getParsedAssetPointer (g : glTF) : option Asset :=
  if negb (Error_eqb (errorCode g) Error_None) then None
  else parsedAsset g.

(** ** Collaborators for concrete documents

    The collaborators used to run the engine on concrete documents.  The
    theorems hold for every choice of them. *)

(** A decoder stand-in that returns the characters it is handed, so that
    the bytes of a data source show which string reached the decoder. *)
Definition characters_handed_over (encoded : string) : list Byte.byte :=
  map byte_of_ascii (list_ascii_of_string encoded).

(** Modelled from the spec: the lookup table of fastgltf_types.hpp from raw
    codes to component types (not part of src), with the numeric codes of
    the document format. *)
Definition component_type_table (code : Z) : ComponentType :=
  if code =? 5120 then ComponentType_Byte
  else if code =? 5121 then ComponentType_UnsignedByte
  else if code =? 5122 then ComponentType_Short
  else if code =? 5123 then ComponentType_UnsignedShort
  else if code =? 5125 then ComponentType_UnsignedInt
  else if code =? 5126 then ComponentType_Float
  else if code =? 5130 then ComponentType_Double
  else ComponentType_Invalid.

(** Modelled from the spec: the lookup of fastgltf_types.hpp from type
    names to element-count types (not part of src). *)
Definition accessor_type_table (name : string) : AccessorType :=
  if String.eqb name "SCALAR" then AccessorType_Scalar
  else if String.eqb name "VEC2" then AccessorType_Vec2
  else if String.eqb name "VEC3" then AccessorType_Vec3
  else if String.eqb name "VEC4" then AccessorType_Vec4
  else if String.eqb name "MAT2" then AccessorType_Mat2
  else if String.eqb name "MAT3" then AccessorType_Mat3
  else if String.eqb name "MAT4" then AccessorType_Mat4
  else AccessorType_Invalid.

(** A texture, an image and a mesh with nothing set. *)
Definition Texture_unset : Texture := mkTexture size_t_max size_t_max size_t_max "".
Definition Image_unset : Image := mkImage DataLocation_None DataSource_empty "".
Definition Mesh_unset : Mesh := mkMesh [] "".

Definition both_extensions : Options :=
  Z.lor Options_LoadKTXExtension Options_LoadDDSExtension.

(** A session over the document [doc]. *)
Definition session (doc : list (string * value)) (opts : Options) : glTF :=
  glTF_new doc path_empty opts.

(** A file system with three files and one directory, and a tokenizer
    stand-in that yields one fixed document for an input that starts with
    an opening brace. *)
Definition example_exists (p : fs_path) : bool :=
  match p with
  | path_of s =>
      String.eqb s "scene.gltf" || String.eqb s "tiny.gltf" || String.eqb s "scene.txt"
  | _ => false
  end.

Definition example_is_directory (p : fs_path) : bool :=
  match p with
  | path_of s => String.eqb s "assets"
  | _ => false
  end.

Definition example_extension (p : fs_path) : option string :=
  match p with
  | path_of s =>
      if String.eqb s "scene.gltf" || String.eqb s "tiny.gltf" then Some ".gltf"
      else if String.eqb s "scene.txt" then Some ".txt"
      else None
  | _ => None
  end.

Definition example_parent_path (p : fs_path) : fs_path := path_empty.

Definition example_file_bytes (p : fs_path) : list Byte.byte :=
  match p with
  | path_of s =>
      if String.eqb s "tiny.gltf" then [Byte.x7b; Byte.x7d]
      else [Byte.x7b; Byte.x20; Byte.x20; Byte.x7d]
  | _ => []
  end.

Definition example_document : value :=
  Object [("asset", Object [("version", Text "2.0")])].

Definition example_tokenize (input : list Byte.byte) : option value :=
  match input with
  | Byte.x7b :: _ => Some example_document
  | _ => None
  end.

(** ** The entity parsers

    The collaborators that src only calls are the variables of this
    section: the two base64 decoders of base64_decode.hpp, the lookup
    functions of fastgltf_types.hpp (the narrowing cast of the raw code is
    part of [getComponentType] here) and the values that default
    initialisation gives to the structs declared with [Image image;],
    [Texture texture;] and [Mesh mesh;]. *)

Section Engine.
Variable base64_decode : string -> list Byte.byte.
Variable base64_fallback_decode : string -> list Byte.byte.
Variable getComponentType : Z -> ComponentType.
Variable getAccessorType : string -> AccessorType.
Variable Image_default : Image.
Variable Texture_default : Texture.
Variable Mesh_default : Mesh.

(** [fg::glTF::decodeUri] *)
Definition decodeUri (g : glTF) (uri : string) : Error * DataSource * DataLocation :=
  if String.eqb (substr uri 0 4) "data" then
    let index := find uri ";" 0 in
    let encodingEnd := find uri "," (wrap (index + 1)) in
    if (index =? npos) || (encodingEnd =? npos) then
      (Error_InvalidGltf, DataSource_empty, DataLocation_None)
    else
      let encoding := substr uri (wrap (index + 1)) (wrap (encodingEnd - index - 1)) in
      if negb (String.eqb encoding "base64") then
        (Error_InvalidGltf, DataSource_empty, DataLocation_None)
      else
        let encodedData := substr uri encodingEnd npos in
        let uriData :=
          if hasBit (options g) Options_DontUseSIMD
          then base64_fallback_decode encodedData
          else base64_decode encodedData in
        let source :=
          mkDataSource (bufferViewIndex DataSource_empty) (path DataSource_empty)
            uriData (getMimeTypeFromString (substr uri 5 (wrap (index - 5)))) in
        (Error_None, source, DataLocation_VectorWithMime)
  else
    let source :=
      mkDataSource (bufferViewIndex DataSource_empty) (path_append (directory g) uri)
        (bytes DataSource_empty) (mimeType DataSource_empty) in
    (Error_None, source, DataLocation_FilePathWithByteRange).

(** The common tail of every parser:
    [if (!found && error != Error::None) errorCode = error; return errorCode;] *)
Definition record_error (r : (bool * Error) * glTF) : Error * glTF :=
  let '((found, error), g) := r in
  let g' :=
    if negb found && negb (Error_eqb error Error_None)
    then set_errorCode error g else g in
  (errorCode g', g').

(** In the element builders below [None] is the lambda's [return false]
    and [Some x] is the element handed to [emplace_back]; [default d o]
    is the value left in an out-parameter that [get] does not write on
    failure. *)

(** The lambda of [fg::glTF::parseBuffers]. *)
Definition parseBuffers_element (g : glTF) (v : value) : option Buffer :=
  bufferObject ← get_object (Some v);
  byteLength ← get_uint64 (find_field bufferObject "byteLength");
  '(data, location) ←
    match get_string (find_field bufferObject "uri") with
    | Some uri =>
        let '(error, source, location) := decodeUri g uri in
        if negb (Error_eqb error Error_None) then None
        else Some (source, location)
    | None => Some (DataSource_empty, DataLocation_None)
    end;
  if DataLocation_eqb location DataLocation_None then None
  else
    let name := default "" (get_string (find_field bufferObject "name")) in
    Some (mkBuffer byteLength location data name).

Definition parseBuffers_callback (v : value) (g : glTF) : bool * glTF :=
  match parseBuffers_element g v with
  | None => (false, g)
  | Some buffer => (true, update_asset (emplace_buffer buffer) g)
  end.

(** [fg::glTF::parseBuffers] *)
Definition parseBuffers (g : glTF) : Error * glTF :=
  record_error (iterateOverArray parseBuffers_callback (root g) "buffers" g).

(** The lambda of [fg::glTF::parseBufferViews]. *)
Definition parseBufferViews_element (v : value) : option BufferView :=
  bufferViewObject ← get_object (Some v);
  bufferIndex ← get_uint64 (find_field bufferViewObject "buffer");
  byteLength ← get_uint64 (find_field bufferViewObject "byteLength");
  let byteOffset := default 0 (get_uint64 (find_field bufferViewObject "byteOffset")) in
  let target := default 0 (get_uint64 (find_field bufferViewObject "target")) in
  let name := default "" (get_string (find_field bufferViewObject "name")) in
  Some (mkBufferView bufferIndex byteOffset byteLength target name).

Definition parseBufferViews_callback (v : value) (g : glTF) : bool * glTF :=
  match parseBufferViews_element v with
  | None => (false, g)
  | Some view => (true, update_asset (emplace_bufferView view) g)
  end.

(** [fg::glTF::parseBufferViews] *)
Definition parseBufferViews (g : glTF) : Error * glTF :=
  record_error (iterateOverArray parseBufferViews_callback (root g) "bufferViews" g).

(** The lambda of [fg::glTF::parseAccessors]. *)
Definition parseAccessors_element (g : glTF) (v : value) : option Accessor :=
  accessorObject ← get_object (Some v);
  componentType ← get_uint64 (find_field accessorObject "componentType");
  let accessor_componentType := getComponentType componentType in
  if ComponentType_eqb accessor_componentType ComponentType_Double
     && negb (hasBit (options g) Options_AllowDouble)
  then None
  else
    accessorType ← get_string (find_field accessorObject "type");
    let accessor_type := getAccessorType accessorType in
    count ← get_uint64 (find_field accessorObject "count");
    let bufferViewIndex :=
      default size_t_max (get_uint64 (find_field accessorObject "bufferView")) in
    let byteOffset := default 0 (get_uint64 (find_field accessorObject "byteOffset")) in
    let normalized := default false (get_bool (find_field accessorObject "normalized")) in
    let name := default "" (get_string (find_field accessorObject "name")) in
    Some (mkAccessor byteOffset count accessor_type accessor_componentType
            normalized bufferViewIndex name).

Definition parseAccessors_callback (v : value) (g : glTF) : bool * glTF :=
  match parseAccessors_element g v with
  | None => (false, g)
  | Some accessor => (true, update_asset (emplace_accessor accessor) g)
  end.

(** [fg::glTF::parseAccessors] *)
Definition parseAccessors (g : glTF) : Error * glTF :=
  record_error (iterateOverArray parseAccessors_callback (root g) "accessors" g).

Definition set_mimeType (m : MimeType) (d : DataSource) : DataSource :=
  mkDataSource (bufferViewIndex d) (path d) (bytes d) m.

(** The lambda of [fg::glTF::parseImages]. *)
Definition parseImages_element (g : glTF) (v : value) : option Image :=
  imageObject ← get_object (Some v);
  '(data, location) ←
    match get_string (find_field imageObject "uri") with
    | Some uri =>
        if has_field imageObject "bufferView" then None
        else
          let '(error, source, location) := decodeUri g uri in
          if negb (Error_eqb error Error_None) then None
          else
            match get_string (find_field imageObject "mimeType") with
            | Some mimeType => Some (set_mimeType (getMimeTypeFromString mimeType) source, location)
            | None => Some (source, location)
            end
    | None => Some (image_data Image_default, image_location Image_default)
    end;
  data' ←
    match get_uint64 (find_field imageObject "bufferView") with
    | Some bufferViewIndex =>
        match get_string (find_field imageObject "mimeType") with
        | None => None
        | Some mimeType =>
            Some (mkDataSource bufferViewIndex (path data) (bytes data)
                    (getMimeTypeFromString mimeType))
        end
    | None => Some data
    end;
  if DataLocation_eqb location DataLocation_None then None
  else
    let name :=
      default (image_name Image_default) (get_string (find_field imageObject "name")) in
    Some (mkImage location data' name).

Definition parseImages_callback (v : value) (g : glTF) : bool * glTF :=
  match parseImages_element g v with
  | None => (false, g)
  | Some image => (true, update_asset (emplace_image image) g)
  end.

(** [fg::glTF::parseImages] *)
Definition parseImages (g : glTF) : Error * glTF :=
  record_error (iterateOverArray parseImages_callback (root g) "images" g).

Definition set_fallbackImageIndex (i : Z) (t : Texture) : Texture :=
  mkTexture (imageIndex t) i (samplerIndex t) (texture_name t).
Definition set_samplerIndex (i : Z) (t : Texture) : Texture :=
  mkTexture (imageIndex t) (fallbackImageIndex t) i (texture_name t).
Definition set_texture_name (n : string) (t : Texture) : Texture :=
  mkTexture (imageIndex t) (fallbackImageIndex t) (samplerIndex t) n.

(** The lambda of [fg::glTF::parseTextures]. *)
Definition parseTextures_element (g : glTF) (v : value) : option Texture :=
  textureObject ← get_object (Some v);
  let extensions := get_object (find_field textureObject "extensions") in
  let hasExtensions := match extensions with Some _ => true | None => false end in
  let texture := set_imageIndex size_t_max Texture_default in
  let source := get_uint64 (find_field textureObject "source") in
  let texture := set_imageIndex (default (imageIndex texture) source) texture in
  if match source with Some _ => false | None => true end && negb hasExtensions
  then None
  else
    texture ←
      match extensions with
      | Some extensionsObject =>
          let texture := set_fallbackImageIndex (imageIndex texture) texture in
          let '(ok, texture) :=
            parseTextureExtensions texture extensionsObject (options g) in
          if negb ok then None else Some texture
      | None => Some texture
      end;
    let texture :=
      set_samplerIndex
        (default size_t_max (get_uint64 (find_field textureObject "sampler"))) texture in
    let texture :=
      set_texture_name
        (default (texture_name texture) (get_string (find_field textureObject "name")))
        texture in
    Some texture.

Definition parseTextures_callback (v : value) (g : glTF) : bool * glTF :=
  match parseTextures_element g v with
  | None => (false, g)
  | Some texture => (true, update_asset (emplace_texture texture) g)
  end.

(** [fg::glTF::parseTextures] *)
Definition parseTextures (g : glTF) : Error * glTF :=
  record_error (iterateOverArray parseTextures_callback (root g) "textures" g).

(** The loop over [attributesObject]: [primitive.attributes[key]] is
    created or found, then written by [get]. *)
Fixpoint parse_attributes (fields : list (string * value)) (attrs : gmap string Z)
  : option (gmap string Z) :=
  match fields with
  | [] => Some attrs
  | (key, v) :: rest =>
      match get_uint64 (Some v) with
      | None => None
      | Some index => parse_attributes rest (<[key := index]> attrs)
      end
  end.

(** The inner lambda of [fg::glTF::parseMeshes]; the primitive type is
    kept as the raw mode. *)
Definition parseMeshes_primitive (v : value) : option Primitive :=
  primitiveObject ← get_object (Some v);
  attributesObject ← get_object (find_field primitiveObject "attributes");
  attrs ← parse_attributes attributesObject ∅;
  let mode := default 4 (get_uint64 (find_field primitiveObject "mode")) in
  let indices := default size_t_max (get_uint64 (find_field primitiveObject "indices")) in
  let material := default size_t_max (get_uint64 (find_field primitiveObject "material")) in
  Some (mkPrimitive attrs mode indices material).

Definition parseMeshes_primitive_callback (v : value) (prims : list Primitive)
  : bool * list Primitive :=
  match parseMeshes_primitive v with
  | None => (false, prims)
  | Some primitive => (true, (prims ++ [primitive])%list)
  end.

(** The outer lambda of [fg::glTF::parseMeshes]. *)
Definition parseMeshes_callback (v : value) (g : glTF) : bool * glTF :=
  match get_object (Some v) with
  | None => (false, g)
  | Some meshObject =>
      let '((foundPrimitives, primitiveError), prims) :=
        iterateOverArray parseMeshes_primitive_callback meshObject "primitives"
          (primitives Mesh_default) in
      if negb foundPrimitives && negb (Error_eqb primitiveError Error_None)
      then (false, set_errorCode Error_InvalidGltf g)
      else
        let name :=
          default (mesh_name Mesh_default) (get_string (find_field meshObject "name")) in
        (true, update_asset (emplace_mesh (mkMesh prims name)) g)
  end.

(** [fg::glTF::parseMeshes] *)
Definition parseMeshes (g : glTF) : Error * glTF :=
  record_error (iterateOverArray parseMeshes_callback (root g) "meshes" g).

Definition set_hasMatrix (b : bool) (n : Node) : Node :=
  mkNode (meshIndex n) b (matrix n) (node_name n).
Definition set_matrix (m : list spec_float) (n : Node) : Node :=
  mkNode (meshIndex n) (hasMatrix n) m (node_name n).

(** [Node node = {}]: the members are value-initialised, every one zero. *)
Definition Node_zero : Node := mkNode 0 false (replicate 16 (S754_zero false)) "".

(** The loop [for (auto num : matrix)] of [fg::glTF::parseNodes]; [i] is
    the index variable, which the loop body does not change. *)
Fixpoint parseNodes_matrix (nums : list value) (i : nat) (node : Node) : Node :=
  match nums with
  | [] => node
  | num :: rest =>
      match get_double (Some num) with
      | None => set_hasMatrix false node
      | Some val =>
          parseNodes_matrix rest i
            (set_matrix (<[i := static_cast_float val]> (matrix node)) node)
      end
  end.

(** The lambda of [fg::glTF::parseNodes]. *)
Definition parseNodes_element (v : value) : option Node :=
  nodeObject ← get_object (Some v);
  let node := Node_zero in
  let node :=
    mkNode (default size_t_max (get_uint64 (find_field nodeObject "mesh")))
      (hasMatrix node) (matrix node) (node_name node) in
  let node :=
    match get_array (find_field nodeObject "matrix") with
    | Some nums => parseNodes_matrix nums 0%nat (set_hasMatrix true node)
    | None => node
    end in
  let name := default (node_name node) (get_string (find_field nodeObject "name")) in
  Some (mkNode (meshIndex node) (hasMatrix node) (matrix node) name).

Definition parseNodes_callback (v : value) (g : glTF) : bool * glTF :=
  match parseNodes_element v with
  | None => (false, g)
  | Some node => (true, update_asset (emplace_node node) g)
  end.

(** [fg::glTF::parseNodes] *)
Definition parseNodes (g : glTF) : Error * glTF :=
  record_error (iterateOverArray parseNodes_callback (root g) "nodes" g).

(** The inner lambda of [fg::glTF::parseScenes]. *)
Definition parseScenes_node_callback (v : value) (indices : list Z) : bool * list Z :=
  match get_uint64 (Some v) with
  | None => (false, indices)
  | Some index => (true, (indices ++ [index])%list)
  end.

(** The outer lambda of [fg::glTF::parseScenes]. *)
Definition parseScenes_callback (v : value) (g : glTF) : bool * glTF :=
  match get_object (Some v) with
  | None => (false, g)
  | Some sceneObject =>
      let name := default "" (get_string (find_field sceneObject "name")) in
      let '((foundNodes, nodeError), indices) :=
        iterateOverArray parseScenes_node_callback sceneObject "nodes" [] in
      if negb foundNodes && negb (Error_eqb nodeError Error_None)
      then (false, set_errorCode nodeError g)
      else (true, update_asset (emplace_scene (mkScene indices name)) g)
  end.

(** [fg::glTF::parseScenes] *)
Definition parseScenes (g : glTF) : Error * glTF :=
  record_error (iterateOverArray parseScenes_callback (root g) "scenes" g).

(** The eight entity parsers as the steps a caller can invoke. *)
Inductive Parser : Type :=
| Buffers | BufferViews | Accessors | Images | Textures | Meshes | Nodes | Scenes.

Definition run_parser (p : Parser) (g : glTF) : Error * glTF :=
  match p with
  | Buffers => parseBuffers g
  | BufferViews => parseBufferViews g
  | Accessors => parseAccessors g
  | Images => parseImages g
  | Textures => parseTextures g
  | Meshes => parseMeshes g
  | Nodes => parseNodes g
  | Scenes => parseScenes g
  end.

(** A caller invoking several parsers one after the other. *)
Fixpoint run_parsers (ps : list Parser) (g : glTF) : glTF :=
  match ps with
  | [] => g
  | p :: rest => run_parsers rest (snd (run_parser p g))
  end.

(** ** The asset check and the loader ([fg::Parser])

    The collaborators of the loader are std::filesystem and the simdjson
    tokenizer, which src only calls: whether a path exists and whether it
    is a directory, its extension ([None] when [has_extension()] is
    false), its parent path, the bytes of the file it names, the padding
    constant of simdjson.h, and the tokenizer itself, which yields the
    document value or fails.  The source switches the tokenizer
    implementation when [DontUseSIMD] is set; the two implementations
    accept the same documents, and the model has one tokenizer. *)

Variable fs_exists : fs_path -> bool.
Variable fs_is_directory : fs_path -> bool.
Variable path_extension : fs_path -> option string.
Variable path_parent_path : fs_path -> fs_path.
Variable file_bytes : fs_path -> list Byte.byte.
Variable SIMDJSON_PADDING : nat.
Variable tokenize : list Byte.byte -> option value.

(** [fg::glTF::checkAssetField]: the result and the session afterwards. *)
Definition checkAssetField (g : glTF) : bool * glTF :=
  match get_object (find_field (root g) "asset") with
  | None => (false, set_errorCode Error_InvalidOrMissingAssetField g)
  | Some asset =>
      match get_string (find_field asset "version") with
      | None => (false, set_errorCode Error_InvalidOrMissingAssetField g)
      | Some version => (true, g)
      end
  end.

(** The state of an [fg::Parser] that the source reads and writes: its
    error code.  (The name [Parser] is taken by the enumeration of the
    entity parsers above.) *)
Record Loader : Type := mkLoader { loader_errorCode : Error }.

(** [fg::Parser::getError] *)
Definition getError (l : Loader) : Error := loader_errorCode l.

(** [fg::Parser::checkFileExtension] *)
Definition checkFileExtension (l : Loader) (path : fs_path) (extension : string)
  : bool * Loader :=
  match path_extension path with
  | None => (false, mkLoader Error_InvalidPath)
  | Some e =>
      if negb (String.eqb e extension) then (false, mkLoader Error_WrongExtension)
      else (true, l)
  end.

(** [fg::Parser::readJsonFile]: the result, the byte vector and the loader
    afterwards.  The vector is the file followed by the padding. *)
Definition readJsonFile (l : Loader) (path : fs_path)
  : bool * list Byte.byte * Loader :=
  if negb (fs_exists path) then (false, [], mkLoader Error_NonExistentPath)
  else
    let fileSize := Z.of_nat (length (file_bytes path)) in
    if fileSize <? 4 then (false, [], mkLoader Error_InvalidJson)
    else (true, (file_bytes path ++ replicate SIMDJSON_PADDING Byte.x00)%list, l).

(** The common tail of the two loaders that do the work: tokenize the
    first [len] bytes of the padded vector, take the root object, build
    the session and check its asset field. *)
Definition load_document (l : Loader) (padded : list Byte.byte) (len : nat)
    (dir : fs_path) (opts : Options) : option glTF * Loader :=
  match tokenize (take len padded) with
  | None => (None, mkLoader Error_InvalidJson)
  | Some doc =>
      match get_object (Some doc) with
      | None => (None, mkLoader Error_InvalidJson)
      | Some data_root =>
          let gltf := glTF_new data_root dir opts in
          if hasBit opts Options_DontRequireValidAssetMember then (Some gltf, l)
          else
            let (ok, gltf) := checkAssetField gltf in
            if negb ok then (None, mkLoader Error_InvalidOrMissingAssetField)
            else (Some gltf, l)
      end
  end.

(** [fg::Parser::loadGLTF(fs::path, Options)] *)
Definition loadGLTF_path (l : Loader) (path : fs_path) (opts : Options)
  : option glTF * Loader :=
  let l := mkLoader Error_None in
  let (extensionOk, l) :=
    if hasBit opts Options_IgnoreFileExtension then (true, l)
    else checkFileExtension l path ".gltf" in
  if negb extensionOk then (None, mkLoader Error_InvalidPath)
  else
    let '(readOk, data_bytes, l) := readJsonFile l path in
    if negb readOk then (None, l)
    else
      load_document l data_bytes (length data_bytes - SIMDJSON_PADDING)
        (path_parent_path path) opts.

(** [fg::Parser::loadGLTF(std::string_view, Options)] *)
Definition loadGLTF_string (l : Loader) (path : string) (opts : Options)
  : option glTF * Loader :=
  let parsed := path_of path in
  if String.eqb path "" || negb (fs_exists parsed) then (None, mkLoader Error_InvalidPath)
  else loadGLTF_path l parsed opts.

(** [fg::Parser::loadGLTF(uint8_t*, size_t, fs::path, Options)]; the
    pointer and the count are the list [input]. *)
Definition loadGLTF_bytes (l : Loader) (input : list Byte.byte) (dir : fs_path)
    (opts : Options) : option glTF * Loader :=
  if negb (fs_is_directory dir) then (None, mkLoader Error_InvalidPath)
  else
    let l := mkLoader Error_None in
    let byteCount := length input in
    let data_bytes := (input ++ replicate SIMDJSON_PADDING Byte.x00)%list in
    load_document l data_bytes byteCount dir opts.

(** [fg::Parser::loadGLTF(uint8_t*, size_t, std::string_view, Options)] *)
Definition loadGLTF_bytes_string (l : Loader) (input : list Byte.byte) (dir : string)
    (opts : Options) : option glTF * Loader :=
  let parsed := path_of dir in
  if String.eqb dir "" || negb (fs_is_directory parsed) then (None, mkLoader Error_InvalidPath)
  else loadGLTF_bytes l input parsed opts.

(** ** Names used in the statements *)

(** The callback succeeds on every element of the list, in order, and
    takes the state from [st] to [st_end].  The relation is about the
    callback alone: it does not mention the loop. *)
Inductive callback_succeeds {St : Type} (cb : value -> St -> bool * St)
  : list value -> St -> St -> Prop :=
| callback_succeeds_nil (st : St) : callback_succeeds cb [] st st
| callback_succeeds_cons (v : value) (rest : list value) (st st' st_end : St) :
    cb v st = (true, st') ->
    callback_succeeds cb rest st' st_end ->
    callback_succeeds cb (v :: rest) st st_end.

(** The top-level array that each entity parser iterates. *)
Definition array_name (p : Parser) : string :=
  match p with
  | Buffers => "buffers"
  | BufferViews => "bufferViews"
  | Accessors => "accessors"
  | Images => "images"
  | Textures => "textures"
  | Meshes => "meshes"
  | Nodes => "nodes"
  | Scenes => "scenes"
  end.

(** The shape shared by the lambdas of the parsers that build one entity
    per element and append it. *)
Definition appending_callback {A : Type} (element : glTF -> value -> option A)
    (emplace : A -> Asset -> Asset) (v : value) (g : glTF) : bool * glTF :=
  match element g v with
  | None => (false, g)
  | Some x => (true, update_asset (emplace x) g)
  end.

(** [emplace_back] of every entity of [xs], in order. *)
Definition emplace_all {A : Type} (emplace : A -> Asset -> Asset) (xs : list A)
    (a : Asset) : Asset :=
  fold_left (fun acc x => emplace x acc) xs a.

(** The codes that the parsers of [ps], invoked one after the other,
    return to the caller. *)
Fixpoint returned_codes (ps : list Parser) (g : glTF) : list Error :=
  match ps with
  | [] => []
  | p :: rest => fst (run_parser p g) :: returned_codes rest (snd (run_parser p g))
  end.

(** The JSON value is an object. *)
Definition is_object (v : value) : bool :=
  match v with Object _ => true | _ => false end.

(** An element builder that reads nothing of the session but its options
    and its base directory. *)
Definition reads_configuration_only {A : Type} (element : glTF -> value -> option A)
  : Prop :=
  forall g g' v,
    options g = options g' -> directory g = directory g' ->
    element g v = element g' v.

(** What a parser may change in the asset: its own collection, by
    appending. *)
Definition appended_by (p : Parser) (a a' : Asset) : Prop :=
  match p with
  | Buffers => exists new, a' = mkAsset (buffers a ++ new) (bufferViews a) (accessors a)
      (images a) (textures a) (meshes a) (nodes a) (scenes a)
  | BufferViews => exists new, a' = mkAsset (buffers a) (bufferViews a ++ new) (accessors a)
      (images a) (textures a) (meshes a) (nodes a) (scenes a)
  | Accessors => exists new, a' = mkAsset (buffers a) (bufferViews a) (accessors a ++ new)
      (images a) (textures a) (meshes a) (nodes a) (scenes a)
  | Images => exists new, a' = mkAsset (buffers a) (bufferViews a) (accessors a)
      (images a ++ new) (textures a) (meshes a) (nodes a) (scenes a)
  | Textures => exists new, a' = mkAsset (buffers a) (bufferViews a) (accessors a)
      (images a) (textures a ++ new) (meshes a) (nodes a) (scenes a)
  | Meshes => exists new, a' = mkAsset (buffers a) (bufferViews a) (accessors a)
      (images a) (textures a) (meshes a ++ new) (nodes a) (scenes a)
  | Nodes => exists new, a' = mkAsset (buffers a) (bufferViews a) (accessors a)
      (images a) (textures a) (meshes a) (nodes a ++ new) (scenes a)
  | Scenes => exists new, a' = mkAsset (buffers a) (bufferViews a) (accessors a)
      (images a) (textures a) (meshes a) (nodes a) (scenes a ++ new)
  end.

(** ** Predicates used in the statements *)

(** The error state of the session is not none. *)
Definition failed (g : glTF) : Prop := errorCode g <> Error_None.

(** Two sessions that differ at most in [errorCode]. *)
Definition same_but_error (g g' : glTF) : Prop :=
  root g = root g' /\ directory g = directory g' /\
  options g = options g' /\ parsedAsset g = parsedAsset g'.

(** A recognised extension key whose value is an object without an
    unsigned "source". *)
Definition lacks_source (extensions : list (string * value)) (key : string) : Prop :=
  exists o, get_object (find_field extensions key) = Some o /\
            get_uint64 (find_field o "source") = None.

(** The JSON value is a number literal. *)
Definition is_number (v : value) : bool :=
  match v with Integer _ | Real _ => true | _ => false end.

(** ** Facts about the helpers *)

Lemma Error_eqb_eq (a b : Error) : Error_eqb a b = true <-> a = b.
Proof. destruct a, b; simpl; split; intro H; try reflexivity; discriminate H. Qed.

Lemma Error_eqb_refl (a : Error) : Error_eqb a a = true.
Proof. now apply Error_eqb_eq. Qed.

Lemma Error_eqb_neq (a b : Error) : Error_eqb a b = false <-> a <> b.
Proof.
  rewrite <- Error_eqb_eq. destruct (Error_eqb a b); split; intro H;
    try discriminate; try reflexivity; now try (exfalso; apply H).
Qed.

Section iterate_facts.
Context {St : Type}.
Variable cb : value -> St -> bool * St.

(** The loop over a concatenation: the second part runs only when every
    element of the first succeeded. *)
Lemma iterate_fields_app (l1 l2 : list value) (st : St) :
  iterate_fields cb (l1 ++ l2)%list st =
  match iterate_fields cb l1 st with
  | ((true, _), st1) => iterate_fields cb l2 st1
  | r => r
  end.
Proof.
  revert st. induction l1 as [|v l1 IH]; intro st; simpl.
  - reflexivity.
  - destruct (cb v st) as [ok st']. destruct ok.
    + apply IH.
    + reflexivity.
Qed.

(** The only two outcomes of the loop. *)
Lemma iterate_fields_outcome (l : list value) (st : St) :
  fst (iterate_fields cb l st) = (true, Error_None) \/
  fst (iterate_fields cb l st) = (false, Error_InvalidGltf).
Proof.
  revert st. induction l as [|v l IH]; intro st; simpl.
  - now left.
  - destruct (cb v st) as [ok st']. destruct ok.
    + apply IH.
    + now right.
Qed.

(** A property of the state that every callback invocation keeps is
    kept by the whole loop. *)
Lemma iterate_fields_invariant (P : St -> Prop) :
  (forall v st, P st -> P (snd (cb v st))) ->
  forall l st, P st -> P (snd (iterate_fields cb l st)).
Proof.
  intros Hcb l. induction l as [|v l IH]; intros st Hst; simpl.
  - exact Hst.
  - specialize (Hcb v st Hst). destruct (cb v st) as [ok st']. simpl in Hcb.
    destruct ok.
    + now apply IH.
    + exact Hcb.
Qed.

(** An element on which the callback fails from every state that
    satisfies a loop invariant makes the loop fail. *)
Lemma iterate_fields_bad_element (P : St -> Prop) (bad : value) :
  (forall v st, P st -> P (snd (cb v st))) ->
  (forall st, P st -> fst (cb bad st) = false) ->
  forall l st, In bad l -> P st ->
    fst (iterate_fields cb l st) = (false, Error_InvalidGltf).
Proof.
  intros Hcb Hbad l. induction l as [|v l IH]; intros st Hin Hst; simpl.
  - destruct Hin.
  - pose proof (Hcb v st Hst) as Hst'.
    destruct Hin as [-> | Hin].
    + pose proof (Hbad st Hst) as Hf.
      destruct (cb bad st) as [ok st']. simpl in Hf. now subst ok.
    + destruct (cb v st) as [ok st']. simpl in Hst'. destruct ok.
      * now apply IH.
      * reflexivity.
Qed.

Lemma iterateOverArray_invariant (P : St -> Prop) parent name :
  (forall v st, P st -> P (snd (cb v st))) ->
  forall st, P st -> P (snd (iterateOverArray cb parent name st)).
Proof.
  intros Hcb st Hst. unfold iterateOverArray.
  destruct (get_array (find_field parent name)); simpl.
  - now apply iterate_fields_invariant.
  - exact Hst.
Qed.

Lemma iterateOverArray_outcome parent name (st : St) :
  fst (iterateOverArray cb parent name st) = (true, Error_None) \/
  fst (iterateOverArray cb parent name st) = (false, Error_None) \/
  fst (iterateOverArray cb parent name st) = (false, Error_InvalidGltf).
Proof.
  unfold iterateOverArray.
  destruct (get_array (find_field parent name)); simpl.
  - destruct (iterate_fields_outcome l st); auto.
  - auto.
Qed.
End iterate_facts.

(** The loop on a list on which the callback always succeeds. *)
Lemma iterate_fields_succeeds {St : Type} (cb : value -> St -> bool * St)
    (elements : list value) (st st_end : St) :
  callback_succeeds cb elements st st_end ->
  iterate_fields cb elements st = ((true, Error_None), st_end).
Proof.
  intro H. induction H as [st | v rest st st' st_end Hv _ IH]; simpl.
  - reflexivity.
  - rewrite Hv. exact IH.
Qed.

(** Every list either lets the callback succeed throughout or has a first
    element on which it fails. *)
Lemma callback_succeeds_or_fails {St : Type} (cb : value -> St -> bool * St)
    (elements : list value) :
  forall st,
    (exists st_end, callback_succeeds cb elements st st_end) \/
    (exists before bad after st_before st_bad,
       elements = (before ++ bad :: after)%list /\
       callback_succeeds cb before st st_before /\
       cb bad st_before = (false, st_bad)).
Proof.
  induction elements as [|v rest IH]; intro st.
  - left. exists st. constructor.
  - destruct (cb v st) as [ok st'] eqn:Hv. destruct ok.
    + destruct (IH st') as [[st_end H] | (before & bad & after & sb & sbad & -> & H1 & H2)].
      * left. exists st_end. now apply (callback_succeeds_cons cb v rest st st').
      * right. exists (v :: before), bad, after, sb, sbad.
        split; [reflexivity|]. split; [|exact H2].
        now apply (callback_succeeds_cons cb v before st st').
    + right. exists [], v, rest, st, st'. split; [reflexivity|].
      split; [constructor|exact Hv].
Qed.

(** A parser whose array is absent or not an array hands the session back
    as it was. *)
Lemma run_parser_no_array (p : Parser) (g : glTF) :
  get_array (find_field (root g) (array_name p)) = None ->
  run_parser p g = (errorCode g, g).
Proof.
  intro H.
  destruct p; simpl in *;
    [ unfold parseBuffers | unfold parseBufferViews | unfold parseAccessors
    | unfold parseImages | unfold parseTextures | unfold parseMeshes
    | unfold parseNodes | unfold parseScenes ];
    unfold iterateOverArray; rewrite H; simpl; now destruct g.
Qed.

(** C5 (as amended).  The array iteration helper [iterateOverArray]: when
    the named field is absent, or present but not an array, it reports
    (false, no error) and leaves the state untouched, and the parser that
    owns the array records no error and returns the session as it was;
    when the callback succeeds on every element it reports (true, no
    error) with the state the last call left; when the callback fails on
    an element, after succeeding on those before it, it reports (false,
    invalid glTF) with the state that the failing call left, whatever
    follows that element: no later element is processed.  Every array is
    in one of the last two cases. *)
Theorem iterateOverArray_contract {St : Type} (cb : value -> St -> bool * St)
    (parent : list (string * value)) (arrayName : string) (st : St) :
  (get_array (find_field parent arrayName) = None ->
     iterateOverArray cb parent arrayName st = ((false, Error_None), st)) /\
  (forall elements st_end,
     get_array (find_field parent arrayName) = Some elements ->
     callback_succeeds cb elements st st_end ->
     iterateOverArray cb parent arrayName st = ((true, Error_None), st_end)) /\
  (forall before bad after st_before st_bad,
     get_array (find_field parent arrayName) = Some (before ++ bad :: after)%list ->
     callback_succeeds cb before st st_before ->
     cb bad st_before = (false, st_bad) ->
     iterateOverArray cb parent arrayName st = ((false, Error_InvalidGltf), st_bad)) /\
  (forall elements,
     get_array (find_field parent arrayName) = Some elements ->
     (exists st_end, callback_succeeds cb elements st st_end) \/
     (exists before bad after st_before st_bad,
        elements = (before ++ bad :: after)%list /\
        callback_succeeds cb before st st_before /\
        cb bad st_before = (false, st_bad))) /\
  (forall (p : Parser) (g : glTF),
     get_array (find_field (root g) (array_name p)) = None ->
     run_parser p g = (errorCode g, g) /\
     fst (getParsedAsset (snd (run_parser p g))) = fst (getParsedAsset g)).
Proof.
  split; [|split; [|split; [|split]]].
  - unfold iterateOverArray. intros ->. reflexivity.
  - unfold iterateOverArray. intros elements st_end -> H.
    now apply iterate_fields_succeeds.
  - unfold iterateOverArray. intros before bad after st_before st_bad -> Hbefore Hbad.
    rewrite iterate_fields_app, (iterate_fields_succeeds cb before st st_before Hbefore).
    simpl. now rewrite Hbad.
  - intros elements _. apply callback_succeeds_or_fails.
  - intros p g H. rewrite (run_parser_no_array p g H). now split.
Qed.

(** ** The session *)

(** A session whose pointer is null stays so and yields null. *)
Lemma getParsedAsset_null (g : glTF) :
  parsedAsset g = None ->
  fst (getParsedAsset g) = None /\ parsedAsset (snd (getParsedAsset g)) = None.
Proof.
  intro H. unfold getParsedAsset.
  destruct (negb (Error_eqb (errorCode g) Error_None)); simpl; auto.
Qed.

Lemma getParsedAsset_iter_null (n : nat) (g : glTF) :
  parsedAsset g = None ->
  parsedAsset (Nat.iter n (fun s => snd (getParsedAsset s)) g) = None.
Proof.
  intro H. induction n as [|n IH]; simpl.
  - exact H.
  - now apply getParsedAsset_null.
Qed.

(** C6.  [getParsedAsset] on a session that holds its asset returns the
    asset exactly when the error state is none; with a non-none error
    state it returns null; and after a successful retrieval every later
    retrieval on the same session returns null. *)
Theorem getParsedAsset_contract (g : glTF) (a : Asset) :
  parsedAsset g = Some a ->
  (fst (getParsedAsset g) = Some a <-> errorCode g = Error_None) /\
  (errorCode g <> Error_None -> fst (getParsedAsset g) = None) /\
  (errorCode g = Error_None ->
     forall n : nat,
       fst (getParsedAsset
              (Nat.iter n (fun s => snd (getParsedAsset s)) (snd (getParsedAsset g))))
       = None).
Proof.
  intro Ha. repeat split.
  - unfold getParsedAsset.
    destruct (Error_eqb (errorCode g) Error_None) eqn:E; simpl.
    + intros _. now apply Error_eqb_eq.
    + intro H; discriminate H.
  - intro E. unfold getParsedAsset. rewrite E. simpl. exact Ha.
  - intro E. apply Error_eqb_neq in E. unfold getParsedAsset. now rewrite E.
  - intros E n. apply getParsedAsset_null, getParsedAsset_iter_null.
    unfold getParsedAsset. rewrite E. reflexivity.
Qed.

(** *** The error state only grows *)

Lemma failed_update_asset f g : failed g -> failed (update_asset f g).
Proof. exact (fun H => H). Qed.

Lemma record_error_failed (r : (bool * Error) * glTF) :
  failed (snd r) ->
  failed (snd (record_error r)) /\ fst (record_error r) = errorCode (snd (record_error r)).
Proof.
  destruct r as [[found error] g]. simpl. intro Hg.
  destruct (negb found && negb (Error_eqb error Error_None)) eqn:E; simpl.
  - split; [|reflexivity]. unfold failed; simpl.
    apply andb_true_iff in E as [_ E]. apply negb_true_iff in E.
    now apply Error_eqb_neq.
  - now split.
Qed.

Ltac element_callback :=
  match goal with
  | |- context [match ?e with Some _ => _ | None => _ end] =>
      destruct e; simpl; auto using failed_update_asset
  end.

Lemma parseBuffers_callback_failed v g :
  failed g -> failed (snd (parseBuffers_callback v g)).
Proof. intro H. unfold parseBuffers_callback. element_callback. Qed.

Lemma parseBufferViews_callback_failed v g :
  failed g -> failed (snd (parseBufferViews_callback v g)).
Proof. intro H. unfold parseBufferViews_callback. element_callback. Qed.

Lemma parseAccessors_callback_failed v g :
  failed g -> failed (snd (parseAccessors_callback v g)).
Proof. intro H. unfold parseAccessors_callback. element_callback. Qed.

Lemma parseImages_callback_failed v g :
  failed g -> failed (snd (parseImages_callback v g)).
Proof. intro H. unfold parseImages_callback. element_callback. Qed.

Lemma parseTextures_callback_failed v g :
  failed g -> failed (snd (parseTextures_callback v g)).
Proof. intro H. unfold parseTextures_callback. element_callback. Qed.

Lemma parseNodes_callback_failed v g :
  failed g -> failed (snd (parseNodes_callback v g)).
Proof. intro H. unfold parseNodes_callback. element_callback. Qed.

Lemma parseMeshes_callback_failed v g :
  failed g -> failed (snd (parseMeshes_callback v g)).
Proof.
  intro H. unfold parseMeshes_callback.
  destruct (get_object (Some v)) as [meshObject|]; simpl; [|exact H].
  destruct (iterateOverArray _ meshObject "primitives" _) as [[found error] prims].
  destruct (negb found && negb (Error_eqb error Error_None)); simpl.
  - discriminate.
  - exact H.
Qed.

Lemma parseScenes_callback_failed v g :
  failed g -> failed (snd (parseScenes_callback v g)).
Proof.
  intro H. unfold parseScenes_callback.
  destruct (get_object (Some v)) as [sceneObject|]; simpl; [|exact H].
  destruct (iterateOverArray _ sceneObject "nodes" _) as [[found error] indices].
  destruct (negb found && negb (Error_eqb error Error_None)) eqn:E; simpl.
  - apply andb_true_iff in E as [_ E]. apply negb_true_iff in E.
    unfold failed; simpl. now apply Error_eqb_neq.
  - exact H.
Qed.

Lemma run_parser_failed (p : Parser) (g : glTF) :
  failed g ->
  failed (snd (run_parser p g)) /\
  fst (run_parser p g) = errorCode (snd (run_parser p g)).
Proof.
  intro H.
  destruct p; simpl;
    [ unfold parseBuffers | unfold parseBufferViews | unfold parseAccessors
    | unfold parseImages | unfold parseTextures | unfold parseMeshes
    | unfold parseNodes | unfold parseScenes ];
    apply record_error_failed, iterateOverArray_invariant; trivial;
    auto using parseBuffers_callback_failed, parseBufferViews_callback_failed,
      parseAccessors_callback_failed, parseImages_callback_failed,
      parseTextures_callback_failed, parseMeshes_callback_failed,
      parseNodes_callback_failed, parseScenes_callback_failed.
Qed.

Lemma run_parsers_failed (ps : list Parser) (g : glTF) :
  failed g -> failed (run_parsers ps g).
Proof.
  revert g. induction ps as [|p ps IH]; intros g H; simpl.
  - exact H.
  - apply IH. now apply run_parser_failed.
Qed.

(** *** A parser does the same work whatever the error state *)

Lemma same_but_error_update f g g' :
  same_but_error g g' -> same_but_error (update_asset f g) (update_asset f g').
Proof. intros (? & ? & ? & E). repeat split; simpl; try assumption. now rewrite E. Qed.

Lemma same_but_error_set e e' g g' :
  same_but_error g g' -> same_but_error (set_errorCode e g) (set_errorCode e' g').
Proof. intros (? & ? & ? & ?). now repeat split. Qed.

Lemma iterate_fields_related {St : Type} (R : St -> St -> Prop)
    (cb : value -> St -> bool * St) :
  (forall v s s', R s s' ->
     fst (cb v s) = fst (cb v s') /\ R (snd (cb v s)) (snd (cb v s'))) ->
  forall l s s', R s s' ->
    fst (iterate_fields cb l s) = fst (iterate_fields cb l s') /\
    R (snd (iterate_fields cb l s)) (snd (iterate_fields cb l s')).
Proof.
  intros Hcb l. induction l as [|v l IH]; intros s s' HR; simpl.
  - now split.
  - destruct (Hcb v s s' HR) as [Hb HR'].
    destruct (cb v s) as [ok t], (cb v s') as [ok' t']. simpl in Hb, HR'. subst ok'.
    destruct ok.
    + now apply IH.
    + now split.
Qed.

Lemma iterateOverArray_related {St : Type} (R : St -> St -> Prop)
    (cb : value -> St -> bool * St) parent name :
  (forall v s s', R s s' ->
     fst (cb v s) = fst (cb v s') /\ R (snd (cb v s)) (snd (cb v s'))) ->
  forall s s', R s s' ->
    fst (iterateOverArray cb parent name s) = fst (iterateOverArray cb parent name s') /\
    R (snd (iterateOverArray cb parent name s)) (snd (iterateOverArray cb parent name s')).
Proof.
  intros Hcb s s' HR. unfold iterateOverArray.
  destruct (get_array (find_field parent name)); simpl.
  - now apply iterate_fields_related.
  - now split.
Qed.

Lemma decodeUri_same g g' uri :
  same_but_error g g' -> decodeUri g uri = decodeUri g' uri.
Proof. intros (_ & Hd & Ho & _). unfold decodeUri. now rewrite Hd, Ho. Qed.

Lemma parseBuffers_element_same g g' v :
  same_but_error g g' -> parseBuffers_element g v = parseBuffers_element g' v.
Proof.
  intro H. unfold parseBuffers_element.
  destruct (get_object (Some v)) as [o|]; simpl; [|reflexivity].
  destruct (get_uint64 (find_field o "byteLength")); simpl; [|reflexivity].
  destruct (get_string (find_field o "uri")) as [uri|]; [|reflexivity].
  now rewrite (decodeUri_same g g' uri H).
Qed.

Lemma parseAccessors_element_same g g' v :
  options g = options g' -> parseAccessors_element g v = parseAccessors_element g' v.
Proof. intro H. unfold parseAccessors_element. now rewrite H. Qed.

Lemma parseImages_element_same g g' v :
  same_but_error g g' -> parseImages_element g v = parseImages_element g' v.
Proof.
  intro H. unfold parseImages_element.
  destruct (get_object (Some v)) as [o|]; simpl; [|reflexivity].
  destruct (get_string (find_field o "uri")) as [uri|]; [|reflexivity].
  now rewrite (decodeUri_same g g' uri H).
Qed.

Lemma parseTextures_element_same g g' v :
  options g = options g' -> parseTextures_element g v = parseTextures_element g' v.
Proof. intro H. unfold parseTextures_element. now rewrite H. Qed.

Ltac related_callback Helt :=
  rewrite Helt;
  match goal with
  | |- context [match ?e with Some _ => _ | None => _ end] =>
      destruct e; simpl; auto using same_but_error_update
  end.

Lemma run_parser_same (p : Parser) (g g' : glTF) :
  same_but_error g g' ->
  same_but_error (snd (run_parser p g)) (snd (run_parser p g')).
Proof.
  intro H.
  assert (Hrec : forall r r' : (bool * Error) * glTF,
             fst r = fst r' /\ same_but_error (snd r) (snd r') ->
             same_but_error (snd (record_error r)) (snd (record_error r'))).
  { intros [[f e] x] [[f' e'] x'] [Hf Hx]. simpl in Hf, Hx.
    injection Hf as -> ->. simpl.
    destruct (negb f' && negb (Error_eqb e' Error_None)); simpl;
      auto using same_but_error_set. }
  pose proof H as (Hroot & _ & Hopt & _).
  destruct p; simpl;
    [ unfold parseBuffers | unfold parseBufferViews | unfold parseAccessors
    | unfold parseImages | unfold parseTextures | unfold parseMeshes
    | unfold parseNodes | unfold parseScenes ];
    rewrite <- Hroot; apply Hrec, iterateOverArray_related; trivial.
  - unfold parseBuffers_callback. intros v s s' HR.
    related_callback (parseBuffers_element_same s s' v HR).
  - unfold parseBufferViews_callback. intros v s s' HR.
    destruct (parseBufferViews_element v); simpl; auto using same_but_error_update.
  - unfold parseAccessors_callback. intros v s s' HR.
    related_callback (parseAccessors_element_same s s' v (proj1 (proj2 (proj2 HR)))).
  - unfold parseImages_callback. intros v s s' HR.
    related_callback (parseImages_element_same s s' v HR).
  - unfold parseTextures_callback. intros v s s' HR.
    related_callback (parseTextures_element_same s s' v (proj1 (proj2 (proj2 HR)))).
  - unfold parseMeshes_callback. intros v s s' HR.
    destruct (get_object (Some v)) as [o|]; simpl; [|now split].
    destruct (iterateOverArray _ o "primitives" _) as [[found error] prims].
    destruct (negb found && negb (Error_eqb error Error_None)); simpl;
      auto using same_but_error_update, same_but_error_set.
  - unfold parseNodes_callback. intros v s s' HR.
    destruct (parseNodes_element v); simpl; auto using same_but_error_update.
  - unfold parseScenes_callback. intros v s s' HR.
    destruct (get_object (Some v)) as [o|]; simpl; [|now split].
    destruct (iterateOverArray _ o "nodes" _) as [[found error] indices].
    destruct (negb found && negb (Error_eqb error Error_None)); simpl;
      auto using same_but_error_update, same_but_error_set.
Qed.

(** C9.  Once the error state of a session is not none, every entity
    parser invoked afterwards returns a code that is not none and leaves
    the error state not none, and so does every sequence of parsers; the
    parser still runs: what it does to the asset is what it does in the
    same session without the error. *)
Theorem errorCode_monotone (p : Parser) (g : glTF) :
  errorCode g <> Error_None ->
  fst (run_parser p g) <> Error_None /\
  errorCode (snd (run_parser p g)) <> Error_None /\
  (forall ps : list Parser, errorCode (run_parsers ps g) <> Error_None) /\
  parsedAsset (snd (run_parser p g)) =
    parsedAsset (snd (run_parser p (set_errorCode Error_None g))).
Proof.
  intro H. destruct (run_parser_failed p g H) as [Hf Hr].
  repeat split.
  - rewrite Hr. exact Hf.
  - exact Hf.
  - intro ps. now apply run_parsers_failed.
  - apply (run_parser_same p g (set_errorCode Error_None g)). now repeat split.
Qed.

(** ** The data-source resolver *)

Lemma find_from_absent (c : ascii) (s : string) :
  contains c s = false -> forall pos i, find_from c s pos i = npos.
Proof.
  induction s as [|a s IH]; simpl; intros H pos i.
  - reflexivity.
  - apply orb_false_iff in H as [Ha Hs]. rewrite Ha, andb_false_r. now apply IH.
Qed.

(** The test [uri.substr(0, 4) == "data"] on a string that starts with
    these four characters. *)
Lemma substr_0_4_data (rest : string) :
  substr (String.append "data" rest) 0 4 = "data".
Proof.
  change (String.append "data" rest)
    with (String "d" (String "a" (String "t" (String "a" rest)))).
  unfold substr, size. simpl String.length.
  replace (Z.to_nat (Z.min 4 (Z.of_nat (S (S (S (S (String.length rest))))) - 0)))
    with 4%nat by lia.
  simpl. now destruct rest.
Qed.

Lemma size_String (a : ascii) (s : string) : size (String a s) = 1 + size s.
Proof. unfold size. simpl String.length. lia. Qed.

Lemma size_nonneg (s : string) : 0 <= size s.
Proof. unfold size. lia. Qed.

(** A successful [find] returns a position of the string, at or after
    the start position, that holds the character. *)
Lemma find_from_found (c : ascii) (s : string) :
  forall pos i,
    0 <= i -> i + size s <= npos ->
    find_from c s pos i <> npos ->
    i <= find_from c s pos i < i + size s /\
    pos <= find_from c s pos i /\
    String.get (Z.to_nat (find_from c s pos i - i)) s = Some c.
Proof.
  induction s as [|a s IH]; intros pos i Hi Hsz Hr; simpl in *.
  - now elim Hr.
  - rewrite size_String in *. pose proof (size_nonneg s).
    destruct ((pos <=? i) && Ascii.eqb a c) eqn:E.
    + apply andb_true_iff in E as [Hpos Hc].
      apply Z.leb_le in Hpos. apply Ascii.eqb_eq in Hc. subst a.
      rewrite Z.sub_diag. simpl. repeat split; try lia; reflexivity.
    + destruct (IH pos (i + 1)) as (Hb & Hp & Hg); try lia; try assumption.
      repeat split; try lia.
      replace (Z.to_nat (find_from c s pos (i + 1) - i))
        with (S (Z.to_nat (find_from c s pos (i + 1) - (i + 1)))) by lia.
      exact Hg.
Qed.

Lemma substring_get (s : string) :
  forall n c m,
    String.get n s = Some c ->
    String.substring n (S m) s = String c (String.substring (S n) m s).
Proof.
  induction s as [|a s IH]; intros n c m H.
  - destruct n; discriminate H.
  - destruct n as [|n]; simpl in H.
    + injection H as ->. simpl. now destruct s.
    + simpl. rewrite (IH n c m H). reflexivity.
Qed.

(** [s.substr(r)] for a position [r] of [s] starts with the character at
    [r]. *)
Lemma substr_from_position (s : string) (r : Z) (c : ascii) :
  0 <= r < size s -> size s <= npos ->
  String.get (Z.to_nat r) s = Some c ->
  substr s r npos = String c (substr s (r + 1) npos).
Proof.
  intros Hr Hsz Hg. unfold substr.
  replace (Z.to_nat (Z.min npos (size s - r)))
    with (S (Z.to_nat (Z.min npos (size s - (r + 1))))) by lia.
  rewrite (substring_get s _ c _ Hg).
  now replace (Z.to_nat (r + 1)) with (S (Z.to_nat r)) by lia.
Qed.

(** Where [decodeUri] succeeds on a data URI, the ';' and the ',' it
    found are positions of the string with [4 <= index < encodingEnd], so
    that no [substr] call starts beyond the end; and the string handed to
    the base64 decoder is the ',' at [encodingEnd] followed by the
    payload. *)
Lemma decodeUri_substr_in_range (g : glTF) (uri rest : string) :
  uri = String.append "data" rest ->
  size uri <= npos ->
  fst (fst (decodeUri g uri)) = Error_None ->
  let index := find uri ";" 0 in
  let encodingEnd := find uri "," (wrap (index + 1)) in
  4 <= index /\ index < encodingEnd /\ encodingEnd < size uri /\
  bytes (snd (fst (decodeUri g uri))) =
    (if hasBit (options g) Options_DontUseSIMD
     then base64_fallback_decode else base64_decode)
      (String "," (substr uri (encodingEnd + 1) npos)).
Proof.
  intros Huri Hsz. unfold decodeUri.
  replace (String.eqb (substr uri 0 4) "data") with true
    by (now rewrite Huri, substr_0_4_data).
  set (index := find uri ";" 0).
  set (encodingEnd := find uri "," (wrap (index + 1))).
  intro Hok.
  destruct (index =? npos) eqn:Ei; [discriminate Hok|].
  destruct (encodingEnd =? npos) eqn:Ee; [discriminate Hok|].
  simpl in Hok. apply Z.eqb_neq in Ei, Ee.
  destruct (negb (String.eqb _ "base64")); [discriminate Hok|]. simpl.
  assert (Hindex : 4 <= index < size uri).
  { subst uri. unfold index, find in *.
    change (find_from ";" (String.append "data" rest) 0 0)
      with (find_from ";" rest 0 4) in *.
    change (size (String.append "data" rest))
      with (size (String "d" (String "a" (String "t" (String "a" rest))))) in *.
    rewrite !size_String in *.
    destruct (find_from_found ";" rest 0 4) as (Hb & _); lia. }
  assert (Hwrap : wrap (index + 1) = index + 1).
  { unfold wrap. apply Z.mod_small. unfold npos, size_t_max in *. lia. }
  destruct (find_from_found "," uri (wrap (index + 1)) 0) as (Hb & Hp & Hg);
    try lia; try exact Ee.
  fold (find uri "," (wrap (index + 1))) in Hb, Hp, Hg. fold encodingEnd in Hb, Hp, Hg.
  rewrite Z.sub_0_r in Hg. rewrite Hwrap in Hp.
  repeat split; try lia.
  rewrite (substr_from_position uri encodingEnd "," ); try lia; try exact Hg.
  now destruct (hasBit (options g) Options_DontUseSIMD).
Qed.

(** C10.  A URI whose first four characters are "data" is always handled
    by the data-URI branch of [decodeUri]: the result is the invalid-glTF
    failure or embedded bytes, never an external file path; and when the
    string has no ';' or no ',' the result is the invalid-glTF failure. *)
Theorem decodeUri_data_prefix (g : glTF) (uri rest : string) :
  uri = String.append "data" rest ->
  (decodeUri g uri = (Error_InvalidGltf, DataSource_empty, DataLocation_None) \/
   exists source, decodeUri g uri = (Error_None, source, DataLocation_VectorWithMime)) /\
  snd (decodeUri g uri) <> DataLocation_FilePathWithByteRange /\
  (contains ";" uri = false \/ contains "," uri = false ->
     decodeUri g uri = (Error_InvalidGltf, DataSource_empty, DataLocation_None)).
Proof.
  intro Hdata. unfold decodeUri.
  replace (String.eqb (substr uri 0 4) "data") with true
    by (now rewrite Hdata, substr_0_4_data).
  set (index := find uri ";" 0).
  set (encodingEnd := find uri "," (wrap (index + 1))).
  repeat split.
  - destruct ((index =? npos) || (encodingEnd =? npos)); [now left|].
    destruct (negb (String.eqb _ "base64")); [now left|]. right. eauto.
  - destruct ((index =? npos) || (encodingEnd =? npos)); [discriminate|].
    destruct (negb (String.eqb _ "base64")); discriminate.
  - intros [H | H].
    + assert (index = npos) as -> by (apply find_from_absent, H). reflexivity.
    + assert (encodingEnd = npos) as -> by (apply find_from_absent, H).
      now rewrite Z.eqb_refl, orb_true_r.
Qed.

(** C2.  On "data:application/octet-stream;base64,QQ==" [decodeUri]
    returns no error, embedded bytes and the octet-stream MIME type; the
    string it hands to the base64 decoder is ",QQ==": it starts at the
    ',' that ends the encoding name, not after it. *)
Theorem decodeUri_octet_stream_example (g : glTF) :
  decodeUri g "data:application/octet-stream;base64,QQ==" =
  (Error_None,
   mkDataSource 0 path_empty
     (if hasBit (options g) Options_DontUseSIMD
      then base64_fallback_decode ",QQ=="
      else base64_decode ",QQ==")
     MimeType_OctetStream,
   DataLocation_VectorWithMime).
Proof. reflexivity. Qed.

(** ** The texture extension resolver *)

Lemma find_field_remove_same key fields : find_field (remove_field key fields) key = None.
Proof.
  induction fields as [|[k v] rest IH]; simpl; [reflexivity|].
  destruct (String.eqb k key) eqn:E; simpl; [exact IH|]. now rewrite E.
Qed.

Lemma find_field_remove_other key k fields :
  k <> key -> find_field (remove_field key fields) k = find_field fields k.
Proof.
  intro Hne. induction fields as [|[k' v] rest IH]; simpl; [reflexivity|].
  destruct (String.eqb k' key) eqn:E; simpl.
  - apply String.eqb_eq in E. subst k'.
    destruct (String.eqb key k) eqn:E'; [|exact IH].
    apply String.eqb_eq in E'. now elim Hne.
  - now rewrite IH.
Qed.

(** A key whose value is not an object is, for
    [getImageIndexForExtension], an absent key. *)
Lemma getImageIndexForExtension_not_object extensions key :
  get_object (find_field extensions key) = None ->
  getImageIndexForExtension extensions key = (false, true, 0).
Proof. intro H. unfold getImageIndexForExtension. now rewrite H. Qed.

Lemma getImageIndexForExtension_remove extensions key k :
  get_object (find_field extensions key) = None ->
  getImageIndexForExtension (remove_field key extensions) k =
  getImageIndexForExtension extensions k.
Proof.
  intro H. destruct (String.eqb_spec k key) as [-> | Hne].
  - rewrite (getImageIndexForExtension_not_object extensions key H).
    apply getImageIndexForExtension_not_object. now rewrite find_field_remove_same.
  - unfold getImageIndexForExtension. now rewrite find_field_remove_other.
Qed.

(** An array that holds an element on which the texture lambda fails
    makes [parseTextures] report invalid glTF. *)
Lemma parseTextures_bad_element (g : glTF) (elements : list value) (bad : value) :
  get_array (find_field (root g) "textures") = Some elements ->
  In bad elements ->
  parseTextures_element g bad = None ->
  fst (parseTextures g) = Error_InvalidGltf.
Proof.
  intros Harr Hin Hbad. unfold parseTextures, iterateOverArray. rewrite Harr.
  pose proof (iterate_fields_bad_element parseTextures_callback
                (fun s => options s = options g) bad) as H.
  pose proof (iterate_fields_invariant parseTextures_callback
                (fun s => options s = options g)) as Hinv.
  assert (Hkeep : forall v st, options st = options g ->
                    options (snd (parseTextures_callback v st)) = options g).
  { intros v st Hst. unfold parseTextures_callback.
    destruct (parseTextures_element st v); exact Hst. }
  specialize (H Hkeep). specialize (Hinv Hkeep elements g eq_refl).
  assert (Hfail : forall st, options st = options g ->
                    fst (parseTextures_callback bad st) = false).
  { intros st Hst. unfold parseTextures_callback.
    now rewrite (parseTextures_element_same st g bad Hst), Hbad. }
  specialize (H Hfail elements g Hin eq_refl).
  destruct (iterate_fields parseTextures_callback elements g) as [[found error] g'].
  simpl in H. injection H as -> ->. reflexivity.
Qed.

(** C3 (as amended).  When the resolver reaches an enabled candidate
    whose value is an object without a "source" index, it reports failure
    at that point: a later candidate is not consulted, the lambda of the
    texture returns false and [parseTextures] reports invalid glTF. *)
Theorem parseTextureExtensions_object_without_source
    (texture : Texture) (extensions : list (string * value)) (opts : Options) :
  (hasBit opts Options_LoadKTXExtension = true /\
   lacks_source extensions "KHR_texture_basisu") \/
  ((hasBit opts Options_LoadKTXExtension = false \/
    get_object (find_field extensions "KHR_texture_basisu") = None) /\
   hasBit opts Options_LoadDDSExtension = true /\
   lacks_source extensions "MSFT_texture_dds") ->
  parseTextureExtensions texture extensions opts = (false, texture) /\
  (forall g textureObject,
     options g = opts ->
     get_object (find_field textureObject "extensions") = Some extensions ->
     parseTextures_element g (Object textureObject) = None /\
     (forall elements,
        get_array (find_field (root g) "textures") = Some elements ->
        In (Object textureObject) elements ->
        fst (parseTextures g) = Error_InvalidGltf)).
Proof.
  intro H.
  assert (Hext : forall t, parseTextureExtensions t extensions opts = (false, t)).
  { intro t. unfold parseTextureExtensions.
    destruct H as [[Hk (o & Ho & Hs)] | [Hk [Hd (o & Ho & Hs)]]].
    - rewrite Hk. unfold getImageIndexForExtension at 1. now rewrite Ho, Hs.
    - rewrite Hd.
      assert (Hskip :
        (if hasBit opts Options_LoadKTXExtension
         then
           let '(invalidGltf, extensionNotPresent, index) :=
             getImageIndexForExtension extensions "KHR_texture_basisu" in
           if invalidGltf then Some (false, t)
           else if negb extensionNotPresent then Some (true, set_imageIndex index t)
           else None
         else None) = None).
      { destruct Hk as [-> | Hk]; [reflexivity|].
        rewrite (getImageIndexForExtension_not_object _ _ Hk).
        now destruct (hasBit opts Options_LoadKTXExtension). }
      rewrite Hskip. unfold getImageIndexForExtension. now rewrite Ho, Hs. }
  split; [apply Hext|].
  intros g textureObject Hopts Hobj.
  assert (Helt : parseTextures_element g (Object textureObject) = None).
  { unfold parseTextures_element. simpl. rewrite Hobj, Hopts. simpl.
    rewrite andb_false_r, Hext. reflexivity. }
  split; [exact Helt|].
  intros elements Harr Hin. now apply (parseTextures_bad_element g elements _ Harr Hin).
Qed.

(** C4 (as amended).  A recognised key whose value is present but is not
    an object is treated as an absent key: the resolver reports "not
    present" for it and gives the result it gives on the map without
    that key.  For a texture whose extensions map holds such a key, with
    [other] the other recognised key: when the option of [other] is
    enabled and [other] holds an object with a "source", the texture
    parses with that source as image index, is appended, and
    [parseTextures] records no error for it; when [other] supplies no
    source the lambda of the texture returns false and [parseTextures]
    reports invalid glTF.  So texture parsing fails only when no other
    candidate supplies a source. *)
Theorem parseTextureExtensions_non_object_is_absent
    (texture : Texture) (extensions : list (string * value)) (opts : Options)
    (key : string) (v : value) :
  find_field extensions key = Some v ->
  get_object (Some v) = None ->
  getImageIndexForExtension extensions key = (false, true, 0) /\
  parseTextureExtensions texture extensions opts =
    parseTextureExtensions texture (remove_field key extensions) opts /\
  (key = "KHR_texture_basisu" ->
   forall o n,
     hasBit opts Options_LoadDDSExtension = true ->
     get_object (find_field extensions "MSFT_texture_dds") = Some o ->
     get_uint64 (find_field o "source") = Some n ->
     parseTextureExtensions texture extensions opts = (true, set_imageIndex n texture)) /\
  (key = "KHR_texture_basisu" ->
   (hasBit opts Options_LoadDDSExtension = false \/
    get_object (find_field extensions "MSFT_texture_dds") = None) ->
   parseTextureExtensions texture extensions opts = (false, texture)) /\
  (forall (g : glTF) (textureObject : list (string * value)) (other : string)
          (other_option : Options),
     options g = opts ->
     get_object (find_field textureObject "extensions") = Some extensions ->
     (key = "KHR_texture_basisu" /\ other = "MSFT_texture_dds" /\
      other_option = Options_LoadDDSExtension) \/
     (key = "MSFT_texture_dds" /\ other = "KHR_texture_basisu" /\
      other_option = Options_LoadKTXExtension) ->
     (forall o n,
        hasBit opts other_option = true ->
        get_object (find_field extensions other) = Some o ->
        get_uint64 (find_field o "source") = Some n ->
        (exists tex,
           parseTextures_element g (Object textureObject) = Some tex /\
           imageIndex tex = n /\
           parseTextures_callback (Object textureObject) g =
             (true, update_asset (emplace_texture tex) g)) /\
        (get_array (find_field (root g) "textures") = Some [Object textureObject] ->
         fst (parseTextures g) = errorCode g /\
         errorCode (snd (parseTextures g)) = errorCode g)) /\
     ((forall o n,
         hasBit opts other_option = true ->
         get_object (find_field extensions other) = Some o ->
         get_uint64 (find_field o "source") = Some n -> False) ->
      parseTextures_element g (Object textureObject) = None /\
      (forall elements,
         get_array (find_field (root g) "textures") = Some elements ->
         In (Object textureObject) elements ->
         fst (parseTextures g) = Error_InvalidGltf))).
Proof.
  intros Hv Hno.
  assert (Hkey : get_object (find_field extensions key) = None) by now rewrite Hv.
  split; [now apply getImageIndexForExtension_not_object|].
  split.
  { unfold parseTextureExtensions.
    now rewrite !(getImageIndexForExtension_remove extensions key _ Hkey). }
  assert (Hskip : key = "KHR_texture_basisu" ->
    (if hasBit opts Options_LoadKTXExtension
     then
       let '(invalidGltf, extensionNotPresent, index) :=
         getImageIndexForExtension extensions "KHR_texture_basisu" in
       if invalidGltf then Some (false, texture)
       else if negb extensionNotPresent then Some (true, set_imageIndex index texture)
       else None
     else None) = None).
  { intros <-. rewrite (getImageIndexForExtension_not_object _ _ Hkey).
    now destruct (hasBit opts Options_LoadKTXExtension). }
  split.
  { intros Hk o n Hd Ho Hs. unfold parseTextureExtensions.
    rewrite (Hskip Hk), Hd. unfold getImageIndexForExtension. now rewrite Ho, Hs. }
  split.
  { intros Hk Hd. unfold parseTextureExtensions. rewrite (Hskip Hk).
    destruct Hd as [-> | Hd]; [reflexivity|].
    rewrite (getImageIndexForExtension_not_object _ _ Hd).
    now destruct (hasBit opts Options_LoadDDSExtension). }
  intros g textureObject other other_option Hopts Hext Hpair.
  (* The resolver looks at the other candidate only. *)
  assert (Hother : forall t,
    parseTextureExtensions t extensions opts =
      if hasBit opts other_option
      then match getImageIndexForExtension extensions other with
           | (true, _, _) => (false, t)
           | (false, false, i) => (true, set_imageIndex i t)
           | (false, true, _) => (false, t)
           end
      else (false, t)).
  { intro t. unfold parseTextureExtensions.
    destruct Hpair as [(-> & -> & ->) | (-> & -> & ->)].
    - rewrite (getImageIndexForExtension_not_object _ _ Hkey).
      destruct (hasBit opts Options_LoadKTXExtension); simpl;
        destruct (hasBit opts Options_LoadDDSExtension); try reflexivity;
        now destruct (getImageIndexForExtension extensions "MSFT_texture_dds")
          as [[[] []] ?].
    - rewrite (getImageIndexForExtension_not_object _ _ Hkey).
      destruct (hasBit opts Options_LoadKTXExtension); simpl.
      + destruct (getImageIndexForExtension extensions "KHR_texture_basisu")
          as [[[] []] ?]; simpl; try reflexivity;
          now destruct (hasBit opts Options_LoadDDSExtension).
      + now destruct (hasBit opts Options_LoadDDSExtension). }
  split.
  - intros o n Hbit Ho Hs.
    assert (Hres : forall t,
              parseTextureExtensions t extensions opts = (true, set_imageIndex n t)).
    { intro t. rewrite Hother, Hbit. unfold getImageIndexForExtension.
      now rewrite Ho, Hs. }
    assert (Helt : exists tex,
              parseTextures_element g (Object textureObject) = Some tex /\
              imageIndex tex = n).
    { unfold parseTextures_element. simpl. rewrite Hext, andb_false_r, Hopts, Hres.
      simpl. eexists. split; reflexivity. }
    destruct Helt as (tex & Helt & Hidx).
    assert (Hcb : parseTextures_callback (Object textureObject) g =
                  (true, update_asset (emplace_texture tex) g)).
    { unfold parseTextures_callback. now rewrite Helt. }
    split.
    + exists tex. now repeat split.
    + intro Harr. unfold parseTextures, iterateOverArray. rewrite Harr. simpl.
      rewrite Hcb. now split.
  - intro Hnone.
    assert (Hres : forall t, parseTextureExtensions t extensions opts = (false, t)).
    { intro t. rewrite Hother.
      destruct (hasBit opts other_option) eqn:Hbit; [|reflexivity].
      unfold getImageIndexForExtension.
      destruct (get_object (find_field extensions other)) as [o|] eqn:Ho; [|reflexivity].
      destruct (get_uint64 (find_field o "source")) as [n|] eqn:Hs; [|reflexivity].
      now elim (Hnone o n). }
    assert (Helt : parseTextures_element g (Object textureObject) = None).
    { unfold parseTextures_element. simpl. rewrite Hext, andb_false_r, Hopts, Hres.
      reflexivity. }
    split; [exact Helt|].
    intros elements Harr Hin.
    now apply (parseTextures_bad_element g elements _ Harr Hin).
Qed.

(** ** Textures *)

(** The resolver writes [imageIndex] and nothing else. *)
Lemma parseTextureExtensions_fallback texture extensions opts :
  fallbackImageIndex (snd (parseTextureExtensions texture extensions opts)) =
  fallbackImageIndex texture.
Proof.
  unfold parseTextureExtensions.
  destruct (hasBit opts Options_LoadKTXExtension);
    destruct (hasBit opts Options_LoadDDSExtension);
    destruct (getImageIndexForExtension extensions "KHR_texture_basisu") as [[[] []] ?];
    destruct (getImageIndexForExtension extensions "MSFT_texture_dds") as [[[] []] ?];
    reflexivity.
Qed.

(** C8.  With both extension options enabled: a texture with source 0
    whose extensions map holds only the DDS key, with source 5, parses
    into a texture with image index 5 and fallback image index 0, which
    is appended to the asset.  The fallback index is written only when
    an extensions map exists: without one the texture keeps the fallback
    index it was initialised with, with one the fallback is the plain
    source (the sentinel when there is none).  The basis-universal
    candidate is tried first: when it supplies a source that source
    wins, and the DDS candidate is used when the basis-universal key is
    absent. *)
Theorem parseTextures_extension_source (g : glTF) (textureObject : list (string * value)) :
  hasBit (options g) Options_LoadKTXExtension = true ->
  hasBit (options g) Options_LoadDDSExtension = true ->
  (forall ddsObject,
     get_uint64 (find_field textureObject "source") = Some 0 ->
     get_object (find_field textureObject "extensions") =
       Some [("MSFT_texture_dds", Object ddsObject)] ->
     get_uint64 (find_field ddsObject "source") = Some 5 ->
     exists texture,
       parseTextures_element g (Object textureObject) = Some texture /\
       imageIndex texture = 5 /\ fallbackImageIndex texture = 0 /\
       parseTextures_callback (Object textureObject) g =
         (true, update_asset (emplace_texture texture) g)) /\
  (forall source,
     get_object (find_field textureObject "extensions") = None ->
     get_uint64 (find_field textureObject "source") = Some source ->
     exists texture,
       parseTextures_element g (Object textureObject) = Some texture /\
       imageIndex texture = source /\
       fallbackImageIndex texture = fallbackImageIndex Texture_default) /\
  (forall extensions texture,
     get_object (find_field textureObject "extensions") = Some extensions ->
     parseTextures_element g (Object textureObject) = Some texture ->
     fallbackImageIndex texture =
       default size_t_max (get_uint64 (find_field textureObject "source"))) /\
  (forall extensions ktxObject a,
     get_object (find_field textureObject "extensions") = Some extensions ->
     get_object (find_field extensions "KHR_texture_basisu") = Some ktxObject ->
     get_uint64 (find_field ktxObject "source") = Some a ->
     exists texture,
       parseTextures_element g (Object textureObject) = Some texture /\
       imageIndex texture = a) /\
  (forall extensions ddsObject b,
     get_object (find_field textureObject "extensions") = Some extensions ->
     find_field extensions "KHR_texture_basisu" = None ->
     get_object (find_field extensions "MSFT_texture_dds") = Some ddsObject ->
     get_uint64 (find_field ddsObject "source") = Some b ->
     exists texture,
       parseTextures_element g (Object textureObject) = Some texture /\
       imageIndex texture = b).
Proof.
  intros Hktx Hdds.
  assert (Hfromdds : forall extensions ddsObject b,
    get_object (find_field textureObject "extensions") = Some extensions ->
    find_field extensions "KHR_texture_basisu" = None ->
    get_object (find_field extensions "MSFT_texture_dds") = Some ddsObject ->
    get_uint64 (find_field ddsObject "source") = Some b ->
    exists texture,
      parseTextures_element g (Object textureObject) = Some texture /\
      imageIndex texture = b /\
      fallbackImageIndex texture =
        default size_t_max (get_uint64 (find_field textureObject "source"))).
  { intros extensions ddsObject b Hext Hno Hobj Hsrc.
    unfold parseTextures_element. simpl. rewrite Hext, andb_false_r.
    unfold parseTextureExtensions, getImageIndexForExtension.
    rewrite Hktx, Hdds, Hno, Hobj, Hsrc. simpl. eexists. repeat split. }
  repeat split.
  - intros ddsObject Hsrc Hext Hdsrc.
    destruct (Hfromdds _ ddsObject 5 Hext eq_refl eq_refl Hdsrc) as (t & Ht & Hi & Hf).
    exists t. rewrite Hsrc in Hf. repeat split; try assumption.
    unfold parseTextures_callback. now rewrite Ht.
  - intros source Hext Hsrc. unfold parseTextures_element. simpl.
    rewrite Hext, Hsrc. simpl. eexists. repeat split.
  - intros extensions texture Hext. unfold parseTextures_element. simpl.
    rewrite Hext, andb_false_r.
    pose proof (parseTextureExtensions_fallback
      (set_fallbackImageIndex
         (imageIndex (set_imageIndex
            (default (imageIndex (set_imageIndex size_t_max Texture_default))
               (get_uint64 (find_field textureObject "source")))
            (set_imageIndex size_t_max Texture_default)))
         (set_imageIndex
            (default (imageIndex (set_imageIndex size_t_max Texture_default))
               (get_uint64 (find_field textureObject "source")))
            (set_imageIndex size_t_max Texture_default)))
      extensions (options g)) as Hfb.
    destruct (parseTextureExtensions _ extensions (options g)) as [ok t].
    simpl in Hfb. destruct ok; simpl; [|discriminate].
    intro H. injection H as <-. simpl. exact Hfb.
  - intros extensions ktxObject a Hext Hobj Hsrc.
    unfold parseTextures_element. simpl. rewrite Hext, andb_false_r.
    unfold parseTextureExtensions, getImageIndexForExtension.
    rewrite Hktx, Hobj, Hsrc. simpl. eexists. repeat split.
  - intros extensions ddsObject b Hext Hno Hobj Hsrc.
    destruct (Hfromdds _ _ _ Hext Hno Hobj Hsrc) as (t & Ht & Hi & _). eauto.
Qed.

(** ** Accessors *)



(** ** Nodes *)

Lemma get_double_is_number (v : value) :
  is_number v = true <-> exists d, get_double (Some v) = Some d.
Proof.
  destruct v; simpl; split; intro H; try reflexivity; try discriminate H; eauto;
    destruct H as [d H]; discriminate H.
Qed.

(** An array of numbers of any length leaves the matrix flag as it was
    set before the loop, and writes to the entry [i] only. *)
Lemma parseNodes_matrix_numbers (nums : list value) (i : nat) :
  forallb is_number nums = true ->
  forall node,
    hasMatrix (parseNodes_matrix nums i node) = hasMatrix node /\
    (forall j : nat, j <> i ->
       matrix (parseNodes_matrix nums i node) !! j = matrix node !! j).
Proof.
  induction nums as [|num nums IH]; simpl; intros H node.
  - now split.
  - apply andb_true_iff in H as [Hnum Hrest].
    apply get_double_is_number in Hnum as [d Hd]. simpl in Hd. rewrite Hd.
    destruct (IH Hrest (set_matrix (<[i:=static_cast_float d]> (matrix node)) node))
      as [Hflag Hother].
    split; [exact Hflag|].
    intros j Hj. rewrite (Hother j Hj). simpl.
    apply list_lookup_insert_ne. congruence.
Qed.

(** An array with an entry that is not a number clears the matrix
    flag. *)
Lemma parseNodes_matrix_not_number (nums : list value) (i : nat) :
  forallb is_number nums = false ->
  forall node, hasMatrix (parseNodes_matrix nums i node) = false.
Proof.
  induction nums as [|num nums IH]; simpl; intros H node.
  - discriminate H.
  - destruct (is_number num) eqn:Hnum; simpl in H.
    + apply get_double_is_number in Hnum as [d Hd]. simpl in Hd. rewrite Hd.
      now apply IH.
    + assert (Hd : get_double (Some num) = None)
        by (destruct num; try reflexivity; discriminate Hnum).
      simpl in Hd. now rewrite Hd.
Qed.

(** The matrix flag of a parsed node is decided by the entries being
    numbers, whatever their count. *)
Lemma parseNodes_element_hasMatrix (nodeObject : list (string * value))
    (nums : list value) :
  get_array (find_field nodeObject "matrix") = Some nums ->
  exists node,
    parseNodes_element (Object nodeObject) = Some node /\
    hasMatrix node = forallb is_number nums /\
    (forall j : nat, j <> 0%nat -> (j < 16)%nat ->
       forallb is_number nums = true -> matrix node !! j = Some (S754_zero false)).
Proof.
  intro Harr. unfold parseNodes_element. simpl. rewrite Harr.
  eexists. split; [reflexivity|]. simpl. split.
  - destruct (forallb is_number nums) eqn:E.
    + now rewrite (proj1 (parseNodes_matrix_numbers nums 0 E _)).
    + now apply parseNodes_matrix_not_number.
  - intros j Hj Hlt E.
    rewrite (proj2 (parseNodes_matrix_numbers nums 0 E _) j Hj).
    change (replicate 16 (S754_zero false) !! j = Some (S754_zero false)).
    now apply lookup_replicate_2.
Qed.
(** ** Further properties of the engine *)

(** *** What every parser keeps *)

Lemma record_error_result (r : (bool * Error) * glTF) :
  fst (record_error r) = errorCode (snd (record_error r)).
Proof. destruct r as [[found error] g]. reflexivity. Qed.

Lemma record_error_session (r : (bool * Error) * glTF) :
  root (snd (record_error r)) = root (snd r) /\
  directory (snd (record_error r)) = directory (snd r) /\
  options (snd (record_error r)) = options (snd r) /\
  parsedAsset (snd (record_error r)) = parsedAsset (snd r).
Proof.
  destruct r as [[found error] g]. simpl.
  now destruct (negb found && negb (Error_eqb error Error_None)).
Qed.

(** X2.  A parser whose top-level array is absent, is not an array or is
    empty changes nothing in the session and returns the error code that
    the session already had. *)
Theorem run_parser_without_elements (p : Parser) (g : glTF) :
  get_array (find_field (root g) (array_name p)) = None \/
  get_array (find_field (root g) (array_name p)) = Some [] ->
  run_parser p g = (errorCode g, g).
Proof.
  intro H.
  destruct p; simpl in *;
    [ unfold parseBuffers | unfold parseBufferViews | unfold parseAccessors
    | unfold parseImages | unfold parseTextures | unfold parseMeshes
    | unfold parseNodes | unfold parseScenes ];
    unfold iterateOverArray; destruct H as [-> | ->]; simpl; now destruct g.
Qed.

(** The error code that a failing inner or outer array hands to the
    session is the invalid-glTF code. *)
Lemma iterateOverArray_error {St : Type} (cb : value -> St -> bool * St)
    parent name (st : St) found error st' :
  iterateOverArray cb parent name st = ((found, error), st') ->
  negb found && negb (Error_eqb error Error_None) = true ->
  error = Error_InvalidGltf.
Proof.
  intros H E. pose proof (iterateOverArray_outcome cb parent name st) as Ho.
  rewrite H in Ho. simpl in Ho.
  destruct Ho as [Ho | [Ho | Ho]]; injection Ho as -> ->; [discriminate E..|reflexivity].
Qed.

Lemma run_parser_returns_errorCode (p : Parser) (g : glTF) :
  fst (run_parser p g) = errorCode (snd (run_parser p g)).
Proof. destruct p; simpl; apply record_error_result. Qed.

(** X3.  The code that an entity parser returns is the error state it
    leaves in the session, and that state is the one the session had
    before or the invalid-glTF code: an entity parser reports no other
    error. *)
Theorem run_parser_error_code (p : Parser) (g : glTF) :
  fst (run_parser p g) = errorCode (snd (run_parser p g)) /\
  (errorCode (snd (run_parser p g)) = errorCode g \/
   errorCode (snd (run_parser p g)) = Error_InvalidGltf).
Proof.
  set (Q := fun st : glTF => errorCode st = errorCode g \/ errorCode st = Error_InvalidGltf).
  assert (Hrec : forall r : (bool * Error) * glTF,
             (fst r = (true, Error_None) \/ fst r = (false, Error_None) \/
              fst r = (false, Error_InvalidGltf)) ->
             Q (snd r) -> Q (snd (record_error r))).
  { intros [[found error] st] Ho HQ. simpl in *.
    destruct Ho as [Ho | [Ho | Ho]]; injection Ho as -> ->; simpl; auto.
    right. reflexivity. }
  assert (Hsimple : forall (A : Type) (o : option A) (f : A -> Asset -> Asset) st,
             Q st ->
             Q (snd (match o with
                     | Some x => (true, update_asset (f x) st)
                     | None => (false, st)
                     end))).
  { intros A o f st HQ. now destruct o. }
  split.
  - destruct p; simpl; apply record_error_result.
  - destruct p; simpl;
      [ unfold parseBuffers | unfold parseBufferViews | unfold parseAccessors
      | unfold parseImages | unfold parseTextures | unfold parseMeshes
      | unfold parseNodes | unfold parseScenes ];
      (apply Hrec; [apply iterateOverArray_outcome|]);
      (apply iterateOverArray_invariant; [|now left]); intros v st HQ.
    + apply (Hsimple _ (parseBuffers_element st v) emplace_buffer st HQ).
    + apply (Hsimple _ (parseBufferViews_element v) emplace_bufferView st HQ).
    + apply (Hsimple _ (parseAccessors_element st v) emplace_accessor st HQ).
    + apply (Hsimple _ (parseImages_element st v) emplace_image st HQ).
    + apply (Hsimple _ (parseTextures_element st v) emplace_texture st HQ).
    + unfold parseMeshes_callback.
      destruct (get_object (Some v)) as [o|]; simpl; [|exact HQ].
      destruct (iterateOverArray _ o "primitives" _) as [[found error] prims].
      destruct (negb found && negb (Error_eqb error Error_None)); simpl;
        [now right|exact HQ].
    + apply (Hsimple _ (parseNodes_element v) emplace_node st HQ).
    + unfold parseScenes_callback.
      destruct (get_object (Some v)) as [o|]; simpl; [|exact HQ].
      destruct (iterateOverArray _ o "nodes" _) as [[found error] indices] eqn:Hit.
      destruct (negb found && negb (Error_eqb error Error_None)) eqn:E; simpl;
        [|exact HQ].
      right. apply (iterateOverArray_error _ _ _ _ _ _ _ Hit E).
Qed.

Lemma appended_by_refl (p : Parser) (a : Asset) : appended_by p a a.
Proof. destruct p, a; simpl; exists []; now rewrite app_nil_r. Qed.

(** On a session that holds its asset, a parser leaves the document, the
    base directory and the options alone and only appends to its own
    collection of the asset. *)
Lemma run_parser_appends (p : Parser) (g : glTF) (a : Asset) :
  parsedAsset g = Some a ->
  root (snd (run_parser p g)) = root g /\
  directory (snd (run_parser p g)) = directory g /\
  options (snd (run_parser p g)) = options g /\
  exists a', parsedAsset (snd (run_parser p g)) = Some a' /\ appended_by p a a'.
Proof.
  intro Hasset.
  set (Q := fun st : glTF =>
    root st = root g /\ directory st = directory g /\ options st = options g /\
    exists a', parsedAsset st = Some a' /\ appended_by p a a').
  assert (HQg : Q g).
  { unfold Q. repeat split.
    exists a. split; [exact Hasset|apply appended_by_refl]. }
  assert (Hrec : forall r : (bool * Error) * glTF, Q (snd r) -> Q (snd (record_error r))).
  { intros r (H1 & H2 & H3 & H4).
    destruct (record_error_session r) as (E1 & E2 & E3 & E4).
    unfold Q. now rewrite E1, E2, E3, E4. }
  assert (Hset : forall e st, Q st -> Q (set_errorCode e st)).
  { intros e st HQ. exact HQ. }
  assert (Hupd : forall f st,
             (forall a0 a', appended_by p a0 a' -> appended_by p a0 (f a')) ->
             Q st -> Q (update_asset f st)).
  { intros f st Hf (H1 & H2 & H3 & H4). unfold Q. simpl. repeat split; try assumption.
    destruct H4 as (a' & -> & Ha). exists (f a'). split; [reflexivity|now apply Hf]. }
  change (Q (snd (run_parser p g))).
  destruct p; simpl;
    [ unfold parseBuffers | unfold parseBufferViews | unfold parseAccessors
    | unfold parseImages | unfold parseTextures | unfold parseMeshes
    | unfold parseNodes | unfold parseScenes ];
    apply Hrec, iterateOverArray_invariant; trivial; intros v st HQ.
  - unfold parseBuffers_callback. destruct (parseBuffers_element st v); simpl; trivial.
    apply Hupd; trivial. intros a0 a' [new ->]. exists (new ++ [b])%list.
    unfold emplace_buffer. simpl. now rewrite app_assoc.
  - unfold parseBufferViews_callback. destruct (parseBufferViews_element v); simpl; trivial.
    apply Hupd; trivial. intros a0 a' [new ->]. exists (new ++ [b])%list.
    unfold emplace_bufferView. simpl. now rewrite app_assoc.
  - unfold parseAccessors_callback. destruct (parseAccessors_element st v) as [x|]; simpl; trivial.
    apply Hupd; trivial. intros a0 a' [new ->]. exists (new ++ [x])%list.
    unfold emplace_accessor. simpl. now rewrite app_assoc.
  - unfold parseImages_callback. destruct (parseImages_element st v) as [x|]; simpl; trivial.
    apply Hupd; trivial. intros a0 a' [new ->]. exists (new ++ [x])%list.
    unfold emplace_image. simpl. now rewrite app_assoc.
  - unfold parseTextures_callback. destruct (parseTextures_element st v) as [x|]; simpl; trivial.
    apply Hupd; trivial. intros a0 a' [new ->]. exists (new ++ [x])%list.
    unfold emplace_texture. simpl. now rewrite app_assoc.
  - unfold parseMeshes_callback.
    destruct (get_object (Some v)) as [o|]; simpl; trivial.
    destruct (iterateOverArray _ o "primitives" _) as [[found error] prims].
    destruct (negb found && negb (Error_eqb error Error_None)); simpl; [now apply Hset|].
    apply Hupd; trivial. intros a0 a' [new ->]. eexists (new ++ [_])%list.
    unfold emplace_mesh. simpl. now rewrite app_assoc.
  - unfold parseNodes_callback. destruct (parseNodes_element v) as [x|]; simpl; trivial.
    apply Hupd; trivial. intros a0 a' [new ->]. exists (new ++ [x])%list.
    unfold emplace_node. simpl. now rewrite app_assoc.
  - unfold parseScenes_callback.
    destruct (get_object (Some v)) as [o|]; simpl; trivial.
    destruct (iterateOverArray _ o "nodes" _) as [[found error] indices].
    destruct (negb found && negb (Error_eqb error Error_None)); simpl; [now apply Hset|].
    apply Hupd; trivial. intros a0 a' [new ->]. eexists (new ++ [_])%list.
    unfold emplace_scene. simpl. now rewrite app_assoc.
Qed.

(** X4.  On a session that holds its asset, an entity parser never
    changes the document, the base directory or the options of the
    session; on the asset it only appends to its own collection, the
    entities that were there staying where they were and the seven other
    collections staying as they were. *)
Theorem run_parser_frame (p : Parser) (g : glTF) (a : Asset) :
  parsedAsset g = Some a ->
  root (snd (run_parser p g)) = root g /\
  directory (snd (run_parser p g)) = directory g /\
  options (snd (run_parser p g)) = options g /\
  exists a', parsedAsset (snd (run_parser p g)) = Some a' /\ appended_by p a a'.
Proof. exact (run_parser_appends p g a). Qed.

(** *** Releasing the asset after a run of parsers *)

Lemma run_parsers_app (ps1 ps2 : list Parser) (g : glTF) :
  run_parsers (ps1 ++ ps2)%list g = run_parsers ps2 (run_parsers ps1 g).
Proof.
  revert g. induction ps1 as [|p ps1 IH]; intro g; simpl; [reflexivity|apply IH].
Qed.

(** X5.  On a session that starts without error and holds its asset, the
    asset is released after a run of parsers exactly when every parser of
    the run returned the none code: one failing parser anywhere in the run
    makes the retrieval return null. *)
Theorem getParsedAsset_after_parsers (ps : list Parser) (g : glTF) (a : Asset) :
  errorCode g = Error_None ->
  parsedAsset g = Some a ->
  (fst (getParsedAsset (run_parsers ps g)) = None <->
   Exists (fun e => e <> Error_None) (returned_codes ps g)) /\
  (Forall (fun e => e = Error_None) (returned_codes ps g) ->
   exists a', fst (getParsedAsset (run_parsers ps g)) = Some a').
Proof.
  revert g a. induction ps as [|p ps IH]; intros g a Herr Ha; simpl.
  - unfold getParsedAsset. rewrite Herr, Ha. simpl. split.
    + split; [discriminate|]. intro H. inversion H.
    + eauto.
  - pose proof (run_parser_returns_errorCode p g) as Hfst.
    pose proof (run_parser_appends p g a Ha) as (_ & _ & _ & Hasset).
    destruct Hasset as (a1 & Ha1 & _).
    destruct (Error_eqb (fst (run_parser p g)) Error_None) eqn:E.
    + apply Error_eqb_eq in E.
      assert (Herr1 : errorCode (snd (run_parser p g)) = Error_None) by congruence.
      destruct (IH _ a1 Herr1 Ha1) as [IH1 IH2]. split.
      * rewrite IH1. rewrite Exists_cons. intuition congruence.
      * intro H. apply IH2. now inversion H.
    + apply Error_eqb_neq in E.
      assert (Hf : failed (snd (run_parser p g))) by (unfold failed; congruence).
      apply (run_parsers_failed ps) in Hf. split.
      * split; [intros _; now apply Exists_cons_hd|].
        intros _. unfold getParsedAsset. apply Error_eqb_neq in Hf. now rewrite Hf.
      * intro H. inversion H; subst. contradiction.
Qed.

(** *** Parsers that build one entity per element *)

Lemma update_asset_emplace_all {A : Type} (emplace : A -> Asset -> Asset) x xs g :
  update_asset (emplace_all emplace xs) (update_asset (emplace x) g) =
  update_asset (emplace_all emplace (x :: xs)) g.
Proof. unfold update_asset. simpl. now destruct (parsedAsset g). Qed.

Lemma update_asset_emplace_nil {A : Type} (emplace : A -> Asset -> Asset) g :
  update_asset (emplace_all emplace []) g = g.
Proof. unfold update_asset. destruct g as [r d o e [a|]]; reflexivity. Qed.

(** When every element builds, the loop appends all the entities, in the
    order of the array. *)
Lemma appending_callback_all {A : Type} (element : glTF -> value -> option A)
    (emplace : A -> Asset -> Asset) :
  reads_configuration_only element ->
  forall elements g xs,
    Forall2 (fun v x => element g v = Some x) elements xs ->
    iterate_fields (appending_callback element emplace) elements g =
      ((true, Error_None), update_asset (emplace_all emplace xs) g).
Proof.
  intros Hst elements. induction elements as [|v rest IH]; intros g xs H.
  - inversion H; subst. simpl. now rewrite update_asset_emplace_nil.
  - inversion H as [|? x ? xs' Hx Hrest]; subst. simpl.
    unfold appending_callback at 1. rewrite Hx.
    rewrite (IH (update_asset (emplace x) g) xs').
    + now rewrite update_asset_emplace_all.
    + eapply Forall2_impl; [exact Hrest|]. intros v' x' Hv'.
      now rewrite <- (Hst g (update_asset (emplace x) g) v').
Qed.

(** The loop stops at the first element that does not build: the entities
    of the elements before it have been appended, nothing of what follows
    has been looked at. *)
Lemma appending_callback_first_failure {A : Type} (element : glTF -> value -> option A)
    (emplace : A -> Asset -> Asset) :
  reads_configuration_only element ->
  forall before bad after g xs,
    Forall2 (fun v x => element g v = Some x) before xs ->
    element g bad = None ->
    iterate_fields (appending_callback element emplace) (before ++ bad :: after)%list g =
      ((false, Error_InvalidGltf), update_asset (emplace_all emplace xs) g).
Proof.
  intros Hst before bad after g xs Hbefore Hbad.
  rewrite iterate_fields_app, (appending_callback_all element emplace Hst before g xs Hbefore).
  simpl. unfold appending_callback.
  now rewrite <- (Hst g (update_asset (emplace_all emplace xs) g) bad), Hbad.
Qed.

Lemma emplace_all_bufferView xs a :
  emplace_all emplace_bufferView xs a =
  mkAsset (buffers a) (bufferViews a ++ xs) (accessors a) (images a)
          (textures a) (meshes a) (nodes a) (scenes a).
Proof.
  revert a. induction xs as [|x xs IH]; intro a; unfold emplace_all in *; simpl.
  - rewrite app_nil_r. now destruct a.
  - rewrite IH. unfold emplace_bufferView. simpl. now rewrite <- app_assoc.
Qed.

Lemma emplace_all_node xs a :
  emplace_all emplace_node xs a =
  mkAsset (buffers a) (bufferViews a) (accessors a) (images a)
          (textures a) (meshes a) (nodes a ++ xs) (scenes a).
Proof.
  revert a. induction xs as [|x xs IH]; intro a; unfold emplace_all in *; simpl.
  - rewrite app_nil_r. now destruct a.
  - rewrite IH. unfold emplace_node. simpl. now rewrite <- app_assoc.
Qed.

Lemma record_error_found g' :
  record_error ((true, Error_None), g') = (errorCode g', g').
Proof. reflexivity. Qed.

Lemma record_error_invalid g' :
  record_error ((false, Error_InvalidGltf), g') =
  (Error_InvalidGltf, set_errorCode Error_InvalidGltf g').
Proof. reflexivity. Qed.

(** X6.  [parseBufferViews] on an array whose first elements build and
    whose next element does not: it reports invalid glTF, the views of the
    elements before the failing one have been appended to the asset, in
    order, whatever follows the failing element, and the asset can no
    longer be retrieved. *)
Theorem parseBufferViews_first_failure (g : glTF) (before after : list value)
    (bad : value) (views : list BufferView) :
  get_array (find_field (root g) "bufferViews") = Some (before ++ bad :: after)%list ->
  Forall2 (fun v x => parseBufferViews_element v = Some x) before views ->
  parseBufferViews_element bad = None ->
  fst (parseBufferViews g) = Error_InvalidGltf /\
  bufferViews <$> parsedAsset (snd (parseBufferViews g)) =
    (fun a => bufferViews a ++ views)%list <$> parsedAsset g /\
  fst (getParsedAsset (snd (parseBufferViews g))) = None.
Proof.
  intros Harr Hbefore Hbad.
  assert (Hrun : parseBufferViews g =
    (Error_InvalidGltf,
     set_errorCode Error_InvalidGltf (update_asset (emplace_all emplace_bufferView views) g))).
  { unfold parseBufferViews, iterateOverArray. rewrite Harr.
    change parseBufferViews_callback
      with (appending_callback (fun _ : glTF => parseBufferViews_element) emplace_bufferView).
    rewrite (appending_callback_first_failure
               (fun _ : glTF => parseBufferViews_element) emplace_bufferView
               (fun _ _ _ _ _ => eq_refl) before bad after g views Hbefore Hbad).
    apply record_error_invalid. }
  rewrite Hrun. simpl. repeat split.
  destruct (parsedAsset g) as [a|]; simpl; [|reflexivity].
  now rewrite emplace_all_bufferView.
Qed.

(** An object always builds a node. *)
Lemma parseNodes_element_object (o : list (string * value)) :
  exists node, parseNodes_element (Object o) = Some node.
Proof. unfold parseNodes_element. simpl. eauto. Qed.

Lemma parseNodes_element_not_object (v : value) :
  is_object v = false -> parseNodes_element v = None.
Proof. destruct v; try reflexivity. discriminate. Qed.

(** X7.  [parseNodes] fails only on an element that is not an object.  On
    an array of objects it appends one node per element, in the order of
    the array, and returns the error code the session had; a mistyped
    "mesh", "matrix" or "name" never makes it fail.  An array with an
    element that is not an object makes it report invalid glTF. *)
Theorem parseNodes_fails_only_on_non_objects (g : glTF) (elements : list value) :
  get_array (find_field (root g) "nodes") = Some elements ->
  (forallb is_object elements = true ->
   exists parsed,
     Forall2 (fun v n => parseNodes_element v = Some n) elements parsed /\
     fst (parseNodes g) = errorCode g /\
     errorCode (snd (parseNodes g)) = errorCode g /\
     nodes <$> parsedAsset (snd (parseNodes g)) =
       (fun a => nodes a ++ parsed)%list <$> parsedAsset g) /\
  (forallb is_object elements = false -> fst (parseNodes g) = Error_InvalidGltf).
Proof.
  intro Harr. split.
  - intro Hobj.
    assert (Hall : exists parsed,
              Forall2 (fun v n => parseNodes_element v = Some n) elements parsed).
    { clear Harr. induction elements as [|v rest IH]; [exists []; constructor|].
      simpl in Hobj. apply andb_true_iff in Hobj as [Hv Hrest].
      destruct (IH Hrest) as [parsed Hp].
      destruct v; try discriminate Hv.
      destruct (parseNodes_element_object fields) as [n Hn].
      exists (n :: parsed). now constructor. }
    destruct Hall as [parsed Hp]. exists parsed. split; [exact Hp|].
    assert (Hrun : parseNodes g =
      (errorCode g, update_asset (emplace_all emplace_node parsed) g)).
    { unfold parseNodes, iterateOverArray. rewrite Harr.
      change parseNodes_callback
        with (appending_callback (fun _ : glTF => parseNodes_element) emplace_node).
      rewrite (appending_callback_all (fun _ : glTF => parseNodes_element) emplace_node
                 (fun _ _ _ _ _ => eq_refl) elements g parsed Hp).
      reflexivity. }
    rewrite Hrun. simpl. repeat split.
    destruct (parsedAsset g) as [a|]; simpl; [|reflexivity].
    now rewrite emplace_all_node.
  - intro Hobj.
    assert (Hbad : exists bad, In bad elements /\ is_object bad = false).
    { clear Harr. induction elements as [|v rest IH]; [discriminate Hobj|].
      simpl in Hobj. destruct (is_object v) eqn:Hv; simpl in Hobj.
      - destruct (IH Hobj) as (bad & Hin & Hb). exists bad. split; [now right|exact Hb].
      - exists v. split; [now left|exact Hv]. }
    destruct Hbad as (bad & Hin & Hb).
    unfold parseNodes, iterateOverArray. rewrite Harr.
    pose proof (iterate_fields_bad_element parseNodes_callback (fun _ => True) bad
                  (fun _ _ _ => I)) as H.
    assert (Hfail : forall st, True -> fst (parseNodes_callback bad st) = false).
    { intros st _. unfold parseNodes_callback.
      now rewrite (parseNodes_element_not_object bad Hb). }
    specialize (H Hfail elements g Hin I).
    destruct (iterate_fields parseNodes_callback elements g) as [[found error] g'].
    simpl in H. injection H as -> ->. reflexivity.
Qed.

Lemma decodeUri_configuration g g' uri :
  options g = options g' -> directory g = directory g' ->
  decodeUri g uri = decodeUri g' uri.
Proof. intros Ho Hd. unfold decodeUri. now rewrite Hd, Ho. Qed.

Lemma parseBuffers_element_configuration : reads_configuration_only parseBuffers_element.
Proof.
  intros g g' v Ho Hd. unfold parseBuffers_element.
  destruct (get_object (Some v)) as [o|]; simpl; [|reflexivity].
  destruct (get_uint64 (find_field o "byteLength")); simpl; [|reflexivity].
  destruct (get_string (find_field o "uri")) as [uri|]; [|reflexivity].
  now rewrite (decodeUri_configuration g g' uri Ho Hd).
Qed.

Lemma parseAccessors_element_configuration : reads_configuration_only parseAccessors_element.
Proof. intros g g' v Ho _. now apply parseAccessors_element_same. Qed.

Lemma parseImages_element_configuration : reads_configuration_only parseImages_element.
Proof.
  intros g g' v Ho Hd. unfold parseImages_element.
  destruct (get_object (Some v)) as [o|]; simpl; [|reflexivity].
  destruct (get_string (find_field o "uri")) as [uri|]; [|reflexivity].
  now rewrite (decodeUri_configuration g g' uri Ho Hd).
Qed.

Lemma parseTextures_element_configuration : reads_configuration_only parseTextures_element.
Proof. intros g g' v Ho _. now apply parseTextures_element_same. Qed.

Lemma emplace_all_buffer xs a :
  emplace_all emplace_buffer xs a =
  mkAsset (buffers a ++ xs) (bufferViews a) (accessors a) (images a)
          (textures a) (meshes a) (nodes a) (scenes a).
Proof.
  revert a. induction xs as [|x xs IH]; intro a; unfold emplace_all in *; simpl.
  - rewrite app_nil_r. now destruct a.
  - rewrite IH. unfold emplace_buffer. simpl. now rewrite <- app_assoc.
Qed.

Lemma emplace_all_accessor xs a :
  emplace_all emplace_accessor xs a =
  mkAsset (buffers a) (bufferViews a) (accessors a ++ xs) (images a)
          (textures a) (meshes a) (nodes a) (scenes a).
Proof.
  revert a. induction xs as [|x xs IH]; intro a; unfold emplace_all in *; simpl.
  - rewrite app_nil_r. now destruct a.
  - rewrite IH. unfold emplace_accessor. simpl. now rewrite <- app_assoc.
Qed.

Lemma emplace_all_image xs a :
  emplace_all emplace_image xs a =
  mkAsset (buffers a) (bufferViews a) (accessors a) (images a ++ xs)
          (textures a) (meshes a) (nodes a) (scenes a).
Proof.
  revert a. induction xs as [|x xs IH]; intro a; unfold emplace_all in *; simpl.
  - rewrite app_nil_r. now destruct a.
  - rewrite IH. unfold emplace_image. simpl. now rewrite <- app_assoc.
Qed.

Lemma emplace_all_texture xs a :
  emplace_all emplace_texture xs a =
  mkAsset (buffers a) (bufferViews a) (accessors a) (images a)
          (textures a ++ xs) (meshes a) (nodes a) (scenes a).
Proof.
  revert a. induction xs as [|x xs IH]; intro a; unfold emplace_all in *; simpl.
  - rewrite app_nil_r. now destruct a.
  - rewrite IH. unfold emplace_texture. simpl. now rewrite <- app_assoc.
Qed.

(** X8.  When every element of its array builds an entity, each of
    [parseBuffers], [parseBufferViews], [parseAccessors], [parseImages]
    and [parseTextures] returns the error code the session had and
    appends exactly the built entities to its collection, one per element
    and in the order of the array. *)
Theorem element_parsers_append_in_order (g : glTF) (elements : list value) :
  (forall xs,
     get_array (find_field (root g) "buffers") = Some elements ->
     Forall2 (fun v x => parseBuffers_element g v = Some x) elements xs ->
     fst (parseBuffers g) = errorCode g /\
     buffers <$> parsedAsset (snd (parseBuffers g)) =
       (fun a => buffers a ++ xs)%list <$> parsedAsset g) /\
  (forall xs,
     get_array (find_field (root g) "bufferViews") = Some elements ->
     Forall2 (fun v x => parseBufferViews_element v = Some x) elements xs ->
     fst (parseBufferViews g) = errorCode g /\
     bufferViews <$> parsedAsset (snd (parseBufferViews g)) =
       (fun a => bufferViews a ++ xs)%list <$> parsedAsset g) /\
  (forall xs,
     get_array (find_field (root g) "accessors") = Some elements ->
     Forall2 (fun v x => parseAccessors_element g v = Some x) elements xs ->
     fst (parseAccessors g) = errorCode g /\
     accessors <$> parsedAsset (snd (parseAccessors g)) =
       (fun a => accessors a ++ xs)%list <$> parsedAsset g) /\
  (forall xs,
     get_array (find_field (root g) "images") = Some elements ->
     Forall2 (fun v x => parseImages_element g v = Some x) elements xs ->
     fst (parseImages g) = errorCode g /\
     images <$> parsedAsset (snd (parseImages g)) =
       (fun a => images a ++ xs)%list <$> parsedAsset g) /\
  (forall xs,
     get_array (find_field (root g) "textures") = Some elements ->
     Forall2 (fun v x => parseTextures_element g v = Some x) elements xs ->
     fst (parseTextures g) = errorCode g /\
     textures <$> parsedAsset (snd (parseTextures g)) =
       (fun a => textures a ++ xs)%list <$> parsedAsset g).
Proof.
  repeat split.
  - unfold parseBuffers, iterateOverArray. rewrite H.
    change parseBuffers_callback
      with (appending_callback parseBuffers_element emplace_buffer).
    now rewrite (appending_callback_all parseBuffers_element emplace_buffer
                   parseBuffers_element_configuration elements g xs H0).
  - unfold parseBuffers, iterateOverArray. rewrite H.
    change parseBuffers_callback
      with (appending_callback parseBuffers_element emplace_buffer).
    rewrite (appending_callback_all parseBuffers_element emplace_buffer
               parseBuffers_element_configuration elements g xs H0).
    simpl. destruct (parsedAsset g) as [a|]; simpl; [|reflexivity].
    now rewrite emplace_all_buffer.
  - unfold parseBufferViews, iterateOverArray. rewrite H.
    change parseBufferViews_callback
      with (appending_callback (fun _ : glTF => parseBufferViews_element) emplace_bufferView).
    now rewrite (appending_callback_all (fun _ : glTF => parseBufferViews_element)
                   emplace_bufferView (fun _ _ _ _ _ => eq_refl) elements g xs H0).
  - unfold parseBufferViews, iterateOverArray. rewrite H.
    change parseBufferViews_callback
      with (appending_callback (fun _ : glTF => parseBufferViews_element) emplace_bufferView).
    rewrite (appending_callback_all (fun _ : glTF => parseBufferViews_element)
               emplace_bufferView (fun _ _ _ _ _ => eq_refl) elements g xs H0).
    simpl. destruct (parsedAsset g) as [a|]; simpl; [|reflexivity].
    now rewrite emplace_all_bufferView.
  - unfold parseAccessors, iterateOverArray. rewrite H.
    change parseAccessors_callback
      with (appending_callback parseAccessors_element emplace_accessor).
    now rewrite (appending_callback_all parseAccessors_element emplace_accessor
                   parseAccessors_element_configuration elements g xs H0).
  - unfold parseAccessors, iterateOverArray. rewrite H.
    change parseAccessors_callback
      with (appending_callback parseAccessors_element emplace_accessor).
    rewrite (appending_callback_all parseAccessors_element emplace_accessor
               parseAccessors_element_configuration elements g xs H0).
    simpl. destruct (parsedAsset g) as [a|]; simpl; [|reflexivity].
    now rewrite emplace_all_accessor.
  - unfold parseImages, iterateOverArray. rewrite H.
    change parseImages_callback
      with (appending_callback parseImages_element emplace_image).
    now rewrite (appending_callback_all parseImages_element emplace_image
                   parseImages_element_configuration elements g xs H0).
  - unfold parseImages, iterateOverArray. rewrite H.
    change parseImages_callback
      with (appending_callback parseImages_element emplace_image).
    rewrite (appending_callback_all parseImages_element emplace_image
               parseImages_element_configuration elements g xs H0).
    simpl. destruct (parsedAsset g) as [a|]; simpl; [|reflexivity].
    now rewrite emplace_all_image.
  - unfold parseTextures, iterateOverArray. rewrite H.
    change parseTextures_callback
      with (appending_callback parseTextures_element emplace_texture).
    now rewrite (appending_callback_all parseTextures_element emplace_texture
                   parseTextures_element_configuration elements g xs H0).
  - unfold parseTextures, iterateOverArray. rewrite H.
    change parseTextures_callback
      with (appending_callback parseTextures_element emplace_texture).
    rewrite (appending_callback_all parseTextures_element emplace_texture
               parseTextures_element_configuration elements g xs H0).
    simpl. destruct (parsedAsset g) as [a|]; simpl; [|reflexivity].
    now rewrite emplace_all_texture.
Qed.

(** *** Scenes *)

Lemma parseScenes_node_indices (ns : list Z) (acc : list Z) :
  Forall (fun n => 0 <= n <= size_t_max) ns ->
  iterate_fields parseScenes_node_callback (map Integer ns) acc =
    ((true, Error_None), (acc ++ ns)%list).
Proof.
  intro H. revert acc. induction H as [|n ns Hn _ IH]; intro acc; simpl.
  - now rewrite app_nil_r.
  - unfold parseScenes_node_callback at 1. simpl.
    replace ((0 <=? n) && (n <=? size_t_max)) with true
      by (symmetry; apply andb_true_iff; split; apply Z.leb_le; lia).
    rewrite IH. now rewrite <- app_assoc.
Qed.

(** X9.  The lambda of [parseScenes] on a scene object: a "nodes" array of
    unsigned 64-bit integers gives a scene whose node indices are these
    integers in the order of the array; a scene without a "nodes" array is
    accepted with no node index; a "nodes" array with an entry that is not
    an unsigned 64-bit integer makes the lambda fail and sets the error
    state of the session to invalid glTF. *)
Theorem parseScenes_callback_node_indices (g : glTF) (sceneObject : list (string * value)) :
  let name := default "" (get_string (find_field sceneObject "name")) in
  (forall ns,
     get_array (find_field sceneObject "nodes") = Some (map Integer ns) ->
     Forall (fun n => 0 <= n <= size_t_max) ns ->
     parseScenes_callback (Object sceneObject) g =
       (true, update_asset (emplace_scene (mkScene ns name)) g)) /\
  (get_array (find_field sceneObject "nodes") = None ->
   parseScenes_callback (Object sceneObject) g =
     (true, update_asset (emplace_scene (mkScene [] name)) g)) /\
  (forall elements bad,
     get_array (find_field sceneObject "nodes") = Some elements ->
     In bad elements -> get_uint64 (Some bad) = None ->
     parseScenes_callback (Object sceneObject) g =
       (false, set_errorCode Error_InvalidGltf g)).
Proof.
  intro name. unfold parseScenes_callback, iterateOverArray. simpl. repeat split.
  - intros ns Harr Hns. rewrite Harr, (parseScenes_node_indices ns [] Hns). reflexivity.
  - intros Harr. rewrite Harr. reflexivity.
  - intros elements bad Harr Hin Hbad. rewrite Harr.
    pose proof (iterate_fields_bad_element parseScenes_node_callback (fun _ => True) bad
                  (fun _ _ _ => I)) as H.
    assert (Hfail : forall st, True -> fst (parseScenes_node_callback bad st) = false).
    { intros st _. unfold parseScenes_node_callback. simpl. now rewrite Hbad. }
    specialize (H Hfail elements [] Hin I).
    destruct (iterate_fields parseScenes_node_callback elements []) as [[found error] ix].
    simpl in H. injection H as -> ->. reflexivity.
Qed.

(** *** Buffers and images *)

Lemma DataLocation_eqb_eq (a b : DataLocation) : DataLocation_eqb a b = true <-> a = b.
Proof. destruct a, b; simpl; split; intro H; try reflexivity; discriminate H. Qed.

Lemma parseBuffers_element_resolved (g : glTF) (v : value) (b : Buffer) :
  parseBuffers_element g v = Some b -> buffer_location b <> DataLocation_None.
Proof.
  unfold parseBuffers_element. intro H.
  destruct v; try discriminate H. simpl in H.
  destruct (get_uint64 (find_field fields "byteLength")) as [len|]; [|discriminate H].
  simpl in H.
  destruct (get_string (find_field fields "uri")) as [uri|]; [|discriminate H].
  destruct (decodeUri g uri) as [[error source] location].
  destruct (Error_eqb error Error_None); [|discriminate H]. simpl in H.
  destruct (DataLocation_eqb location DataLocation_None) eqn:El; [discriminate H|].
  injection H as <-. simpl. intro Hl. subst location. discriminate El.
Qed.

(** X10.  A buffer element builds only from an object with an unsigned
    "byteLength" and a string "uri" that [decodeUri] accepts; the buffer
    carries the source and the location that [decodeUri] returned, and
    this location is never the unresolved one.  In particular a buffer
    without "uri" is rejected. *)
Theorem parseBuffers_element_requires_uri (g : glTF) (v : value) (b : Buffer) :
  parseBuffers_element g v = Some b ->
  exists o uri,
    v = Object o /\
    get_uint64 (find_field o "byteLength") = Some (buffer_byteLength b) /\
    get_string (find_field o "uri") = Some uri /\
    decodeUri g uri = (Error_None, buffer_data b, buffer_location b) /\
    buffer_location b <> DataLocation_None.
Proof.
  unfold parseBuffers_element. intro H.
  destruct v; try discriminate H. simpl in H.
  destruct (get_uint64 (find_field fields "byteLength")) as [len|] eqn:Hlen;
    [|discriminate H].
  simpl in H.
  destruct (get_string (find_field fields "uri")) as [uri|] eqn:Huri; [|discriminate H].
  destruct (decodeUri g uri) as [[error source] location] eqn:Hdec.
  destruct (Error_eqb error Error_None) eqn:E; [|discriminate H]. simpl in H.
  destruct (DataLocation_eqb location DataLocation_None) eqn:El; [discriminate H|].
  injection H as <-. apply Error_eqb_eq in E. subst error.
  exists fields, uri. simpl.
  split; [reflexivity|]. split; [exact Hlen|]. split; [exact Huri|].
  split; [exact Hdec|]. intro Hl. subst location. discriminate El.
Qed.

(** X11.  [parseBuffers] keeps the buffers of the asset resolved: when no
    buffer of the asset has the unresolved location before the call, none
    has it afterwards, whether the call succeeds or not. *)
Theorem parseBuffers_keeps_buffers_resolved (g : glTF) (a : Asset) :
  parsedAsset g = Some a ->
  Forall (fun b => buffer_location b <> DataLocation_None) (buffers a) ->
  exists a',
    parsedAsset (snd (parseBuffers g)) = Some a' /\
    Forall (fun b => buffer_location b <> DataLocation_None) (buffers a').
Proof.
  intros Ha Hres.
  set (Q := fun st : glTF => exists a',
              parsedAsset st = Some a' /\
              Forall (fun b => buffer_location b <> DataLocation_None) (buffers a')).
  assert (HQ : Q (snd (iterateOverArray parseBuffers_callback (root g) "buffers" g))).
  { apply iterateOverArray_invariant; [|now exists a].
    intros v st (a' & Ha' & Hf). unfold parseBuffers_callback.
    destruct (parseBuffers_element st v) as [b|] eqn:Hb; simpl; [|now exists a'].
    pose proof (parseBuffers_element_resolved st v b Hb) as Hl.
    exists (emplace_buffer b a'). split; [simpl; now rewrite Ha'|].
    simpl. apply Forall_app. split; [exact Hf|]. now constructor. }
  destruct HQ as (a' & Ha' & Hf). exists a'. split; [|exact Hf].
  unfold parseBuffers.
  now rewrite (proj2 (proj2 (proj2 (record_error_session _)))).
Qed.

(** X12.  When a default-initialised image has the unresolved location, an
    image element builds only from an object with a string "uri" that
    [decodeUri] accepts and without any "bufferView" field: the location
    of the image is the one [decodeUri] returned.  An image that gives
    only "bufferView" and "mimeType" is rejected, its location being never
    set. *)
Theorem parseImages_element_requires_uri (g : glTF) (v : value) (img : Image) :
  image_location Image_default = DataLocation_None ->
  parseImages_element g v = Some img ->
  exists o uri,
    v = Object o /\
    get_string (find_field o "uri") = Some uri /\
    find_field o "bufferView" = None /\
    fst (fst (decodeUri g uri)) = Error_None /\
    image_location img = snd (decodeUri g uri) /\
    image_location img <> DataLocation_None.
Proof.
  unfold parseImages_element. intros Hdef H.
  destruct v; try discriminate H. simpl in H.
  destruct (get_string (find_field fields "uri")) as [uri|] eqn:Huri.
  - unfold has_field in H.
    destruct (find_field fields "bufferView") as [bv|] eqn:Hbv; [discriminate H|].
    destruct (decodeUri g uri) as [[error source] location] eqn:Hdec.
    destruct (Error_eqb error Error_None) eqn:E; [|discriminate H]. simpl in H.
    apply Error_eqb_eq in E. subst error.
    assert (Hloc : forall d : DataSource,
      (if DataLocation_eqb location DataLocation_None then None
       else Some (mkImage location d
                    (default (image_name Image_default)
                       (get_string (find_field fields "name"))))) = Some img ->
      image_location img = location /\ location <> DataLocation_None).
    { intros d Hd.
      destruct (DataLocation_eqb location DataLocation_None) eqn:El; [discriminate Hd|].
      injection Hd as <-. split; [reflexivity|].
      intro Hl. subst location. discriminate El. }
    assert (Himg : image_location img = location /\ location <> DataLocation_None).
    { destruct (get_string (find_field fields "mimeType")); simpl in H;
        exact (Hloc _ H). }
    destruct Himg as [H1 H2].
    exists fields, uri. rewrite Hdec. simpl.
    split; [reflexivity|]. split; [exact Huri|]. split; [exact Hbv|].
    split; [reflexivity|]. split; [exact H1|]. now rewrite H1.
  - simpl in H. rewrite Hdef in H.
    destruct (get_uint64 (find_field fields "bufferView")); simpl in H;
      [destruct (get_string (find_field fields "mimeType")); simpl in H|];
      discriminate H.
Qed.

(** *** Textures and their extensions *)

(** X13.  The resolver either fails and leaves the texture as it was, or
    succeeds with the "source" of the object under one of the two keys,
    the option of that key being enabled; it writes the image index and
    nothing else. *)
Theorem parseTextureExtensions_outcome (texture : Texture)
    (extensions : list (string * value)) (opts : Options) :
  parseTextureExtensions texture extensions opts = (false, texture) \/
  exists key o i,
    ((key = "KHR_texture_basisu" /\ hasBit opts Options_LoadKTXExtension = true) \/
     (key = "MSFT_texture_dds" /\ hasBit opts Options_LoadDDSExtension = true)) /\
    get_object (find_field extensions key) = Some o /\
    get_uint64 (find_field o "source") = Some i /\
    parseTextureExtensions texture extensions opts = (true, set_imageIndex i texture).
Proof.
  unfold parseTextureExtensions, getImageIndexForExtension.
  destruct (hasBit opts Options_LoadKTXExtension) eqn:Hk.
  - destruct (get_object (find_field extensions "KHR_texture_basisu")) as [o|] eqn:Ho.
    + destruct (get_uint64 (find_field o "source")) as [i|] eqn:Hi; simpl.
      * right. exists "KHR_texture_basisu", o, i. auto.
      * now left.
    + simpl. destruct (hasBit opts Options_LoadDDSExtension) eqn:Hd; [|now left].
      destruct (get_object (find_field extensions "MSFT_texture_dds")) as [o|] eqn:Ho';
        [|now left].
      destruct (get_uint64 (find_field o "source")) as [i|] eqn:Hi; simpl; [|now left].
      right. exists "MSFT_texture_dds", o, i. auto.
  - destruct (hasBit opts Options_LoadDDSExtension) eqn:Hd; [|now left].
    destruct (get_object (find_field extensions "MSFT_texture_dds")) as [o|] eqn:Ho';
      [|now left].
    destruct (get_uint64 (find_field o "source")) as [i|] eqn:Hi; simpl; [|now left].
    right. exists "MSFT_texture_dds", o, i. auto.
Qed.

(** X14.  A texture that carries an extensions map is rejected when no
    enabled candidate holds an object, even when its plain "source" is
    present: when both extension options are off, or when the map holds
    only other extensions. *)
Theorem parseTextures_extensions_need_a_candidate (g : glTF)
    (textureObject extensions : list (string * value)) :
  get_object (find_field textureObject "extensions") = Some extensions ->
  hasBit (options g) Options_LoadKTXExtension = false \/
    get_object (find_field extensions "KHR_texture_basisu") = None ->
  hasBit (options g) Options_LoadDDSExtension = false \/
    get_object (find_field extensions "MSFT_texture_dds") = None ->
  parseTextures_element g (Object textureObject) = None /\
  fst (parseTextures_callback (Object textureObject) g) = false.
Proof.
  intros Hext Hk Hd.
  assert (Hfail : forall t, parseTextureExtensions t extensions (options g) = (false, t)).
  { intro t. unfold parseTextureExtensions.
    destruct Hk as [-> | Hk], Hd as [-> | Hd];
      try rewrite (getImageIndexForExtension_not_object _ _ Hk);
      try rewrite (getImageIndexForExtension_not_object _ _ Hd);
      try reflexivity;
      destruct (hasBit (options g) Options_LoadKTXExtension);
      destruct (hasBit (options g) Options_LoadDDSExtension); reflexivity. }
  assert (Helt : parseTextures_element g (Object textureObject) = None).
  { unfold parseTextures_element. simpl. rewrite Hext, andb_false_r, Hfail. reflexivity. }
  split; [exact Helt|]. unfold parseTextures_callback. now rewrite Helt.
Qed.

(** *** Meshes *)

(** X15.  The attribute loop fails when a value is not an unsigned 64-bit
    integer; otherwise the map it returns holds, for every key of the
    object, the value of the last field with that key, and for every
    other key what the map held before. *)
Theorem parse_attributes_lookup (fields : list (string * value)) :
  forall attrs : gmap string Z,
    (forall m, parse_attributes fields attrs = Some m ->
       forall key : string,
         m !! key = match find_field (rev fields) key with
                    | Some v => get_uint64 (Some v)
                    | None => attrs !! key
                    end) /\
    (parse_attributes fields attrs = None <->
     exists key v, In (key, v) fields /\ get_uint64 (Some v) = None).
Proof.
  induction fields as [|[k0 v0] rest IH]; intro attrs.
  - split.
    + intros m H key. simpl in H. injection H as <-. reflexivity.
    + split; [discriminate|]. intros (key & v & [] & _).
  - change (parse_attributes ((k0, v0) :: rest) attrs)
      with (match get_uint64 (Some v0) with
            | None => None
            | Some index => parse_attributes rest (<[k0:=index]> attrs)
            end).
    destruct (get_uint64 (Some v0)) as [z0|] eqn:Hz.
    + destruct (IH (<[k0:=z0]> attrs)) as [IH1 IH2]. split.
      * intros m H key. rewrite (IH1 m H key).
        change (rev ((k0, v0) :: rest)) with (rev rest ++ [(k0, v0)])%list.
        assert (Hfind : forall l : list (string * value),
                  find_field (l ++ [(k0, v0)])%list key =
                  match find_field l key with
                  | Some v => Some v
                  | None => if String.eqb k0 key then Some v0 else None
                  end).
        { induction l as [|[k v] l IHl]; simpl; [reflexivity|].
          now destruct (String.eqb k key). }
        rewrite Hfind. destruct (find_field (rev rest) key); [reflexivity|].
        destruct (String.eqb_spec k0 key) as [-> | Hne].
        -- rewrite lookup_insert_eq. now rewrite Hz.
        -- now rewrite lookup_insert_ne.
      * rewrite IH2. split.
        -- intros (key & v & Hin & Hv). exists key, v. split; [now right|exact Hv].
        -- intros (key & v & [Heq | Hin] & Hv).
           ++ injection Heq as -> ->. congruence.
           ++ exists key, v. now split.
    + split; [discriminate|]. split; [|reflexivity].
      intros _. exists k0, v0. split; [now left|exact Hz].
Qed.

Lemma parseMeshes_primitives_all (elements : list value) (xs acc : list Primitive) :
  Forall2 (fun v x => parseMeshes_primitive v = Some x) elements xs ->
  iterate_fields parseMeshes_primitive_callback elements acc =
    ((true, Error_None), (acc ++ xs)%list).
Proof.
  intro H. revert acc. induction H as [|v x elements xs Hv _ IH]; intro acc; simpl.
  - now rewrite app_nil_r.
  - unfold parseMeshes_primitive_callback at 1. rewrite Hv, IH.
    now rewrite <- app_assoc.
Qed.

(** X16.  The lambda of [parseMeshes] on a mesh object.  Without a
    "primitives" array the mesh is accepted with the primitives of a
    default-initialised mesh; with an array whose elements all build, the
    mesh gets the built primitives, in order; with an array that holds an
    element that does not build a primitive, the lambda fails and sets the
    error state of the session to invalid glTF. *)
Theorem parseMeshes_callback_primitives (g : glTF) (meshObject : list (string * value)) :
  let name := default (mesh_name Mesh_default) (get_string (find_field meshObject "name")) in
  (get_array (find_field meshObject "primitives") = None ->
   parseMeshes_callback (Object meshObject) g =
     (true, update_asset (emplace_mesh (mkMesh (primitives Mesh_default) name)) g)) /\
  (forall elements xs,
     get_array (find_field meshObject "primitives") = Some elements ->
     Forall2 (fun v x => parseMeshes_primitive v = Some x) elements xs ->
     parseMeshes_callback (Object meshObject) g =
       (true, update_asset
                (emplace_mesh (mkMesh (primitives Mesh_default ++ xs)%list name)) g)) /\
  (forall elements bad,
     get_array (find_field meshObject "primitives") = Some elements ->
     In bad elements -> parseMeshes_primitive bad = None ->
     parseMeshes_callback (Object meshObject) g =
       (false, set_errorCode Error_InvalidGltf g)).
Proof.
  intro name. unfold parseMeshes_callback, iterateOverArray. simpl.
  split; [|split].
  - intros Harr. rewrite Harr. reflexivity.
  - intros elements xs Harr Hall.
    rewrite Harr, (parseMeshes_primitives_all elements xs _ Hall). reflexivity.
  - intros elements bad Harr Hin Hbad. rewrite Harr.
    pose proof (iterate_fields_bad_element parseMeshes_primitive_callback
                  (fun _ => True) bad (fun _ _ _ => I)) as H.
    assert (Hfail : forall st, True -> fst (parseMeshes_primitive_callback bad st) = false).
    { intros st _. unfold parseMeshes_primitive_callback. now rewrite Hbad. }
    specialize (H Hfail elements (primitives Mesh_default) Hin I).
    destruct (iterate_fields parseMeshes_primitive_callback elements
                (primitives Mesh_default)) as [[found error] prims].
    simpl in H. injection H as -> ->. reflexivity.
Qed.

(** *** The data-source resolver on whole URIs *)

Lemma append_String (a : ascii) (s1 s2 : string) :
  String.append (String a s1) s2 = String a (String.append s1 s2).
Proof. reflexivity. Qed.

Lemma append_empty (s : string) : String.append "" s = s.
Proof. reflexivity. Qed.

Lemma size_append (s1 s2 : string) : size (String.append s1 s2) = size s1 + size s2.
Proof.
  induction s1 as [|a s1 IH].
  - rewrite append_empty. change (size "") with 0. lia.
  - rewrite append_String, !size_String, IH. lia.
Qed.

Lemma append_assoc' (s1 s2 s3 : string) :
  String.append (String.append s1 s2) s3 = String.append s1 (String.append s2 s3).
Proof.
  induction s1 as [|a s1 IH]; [reflexivity|].
  rewrite !append_String. now rewrite IH.
Qed.

Lemma contains_append (c : ascii) (s1 s2 : string) :
  contains c (String.append s1 s2) = contains c s1 || contains c s2.
Proof.
  induction s1 as [|a s1 IH]; [reflexivity|].
  rewrite append_String. simpl. rewrite IH. apply orb_assoc.
Qed.

Lemma substring_skip (s1 s2 : string) (m : nat) :
  String.substring (String.length s1) m (String.append s1 s2) = String.substring 0 m s2.
Proof.
  induction s1 as [|a s1 IH]; [reflexivity|].
  rewrite append_String. simpl. exact IH.
Qed.

Lemma substring_prefix (s1 s2 : string) :
  String.substring 0 (String.length s1) (String.append s1 s2) = s1.
Proof.
  induction s1 as [|a s1 IH].
  - rewrite append_empty. simpl. now destruct s2.
  - rewrite append_String. simpl. now rewrite IH.
Qed.

Lemma substring_all (s : string) : String.substring 0 (String.length s) s = s.
Proof. induction s as [|a s IH]; simpl; [reflexivity|now rewrite IH]. Qed.

(** [substr] cuts the middle part out of a concatenation. *)
Lemma substr_middle (s1 s2 s3 : string) :
  substr (String.append s1 (String.append s2 s3)) (size s1) (size s2) = s2.
Proof.
  unfold substr. rewrite !size_append.
  pose proof (size_nonneg s3).
  replace (Z.min (size s2) (size s1 + (size s2 + size s3) - size s1)) with (size s2) by lia.
  unfold size. rewrite !Nat2Z.id. rewrite substring_skip. apply substring_prefix.
Qed.

(** [substr] from the end of the first part gives the second part. *)
Lemma substr_tail (s1 s2 : string) :
  size (String.append s1 s2) <= npos ->
  substr (String.append s1 s2) (size s1) npos = s2.
Proof.
  intro H. unfold substr. pose proof (size_nonneg s1). rewrite size_append in *.
  replace (Z.min npos (size s1 + size s2 - size s1)) with (size s2) by lia.
  unfold size. rewrite !Nat2Z.id. rewrite substring_skip. apply substring_all.
Qed.

(** A search skips the characters that lie before its start position. *)
Lemma find_from_before_start (c : ascii) (s1 s2 : string) :
  forall pos i,
    i + size s1 <= pos ->
    find_from c (String.append s1 s2) pos i = find_from c s2 pos (i + size s1).
Proof.
  induction s1 as [|a s1 IH]; intros pos i H.
  - rewrite append_empty. change (size "") with 0. now rewrite Z.add_0_r.
  - rewrite append_String. rewrite size_String in *. pose proof (size_nonneg s1).
    simpl. replace (pos <=? i) with false by (symmetry; apply Z.leb_gt; lia).
    simpl. rewrite IH by lia. f_equal. lia.
Qed.

(** A search passes over a part that does not hold the character. *)
Lemma find_from_over_absent (c : ascii) (s1 s2 : string) :
  contains c s1 = false ->
  forall pos i,
    find_from c (String.append s1 s2) pos i = find_from c s2 pos (i + size s1).
Proof.
  induction s1 as [|a s1 IH]; intros H pos i.
  - rewrite append_empty. change (size "") with 0. now rewrite Z.add_0_r.
  - rewrite append_String. simpl in H. apply orb_false_iff in H as [Ha Hs].
    simpl. rewrite Ha, andb_false_r.
    rewrite (IH Hs), size_String. f_equal. lia.
Qed.

Lemma find_from_here (c : ascii) (s : string) (pos i : Z) :
  pos <= i -> find_from c (String c s) pos i = i.
Proof.
  intro H. simpl. rewrite Ascii.eqb_refl.
  now replace (pos <=? i) with true by (symmetry; apply Z.leb_le; lia).
Qed.

(** X17.  A data URI of the shape "data", one separator character, a MIME
    string without ';', ";", an encoding name without ',', ",", a
    payload.  [decodeUri] fails with invalid glTF unless the encoding name
    is exactly "base64"; with "base64" it returns embedded bytes, the
    MIME type being the classification of the MIME string and the bytes
    being what the selected decoder makes of the ',' followed by the
    payload.  The separator character is not inspected. *)
Theorem decodeUri_data_uri (g : glTF) (sep : ascii) (mime enc payload : string) :
  let uri :=
    String.append "data"
      (String sep (String.append mime
         (String ";" (String.append enc (String "," payload))))) in
  sep <> ";"%char ->
  contains ";" mime = false ->
  contains "," enc = false ->
  size uri <= npos ->
  decodeUri g uri =
    if String.eqb enc "base64"
    then (Error_None,
          mkDataSource 0 path_empty
            ((if hasBit (options g) Options_DontUseSIMD
              then base64_fallback_decode else base64_decode) (String "," payload))
            (getMimeTypeFromString mime),
          DataLocation_VectorWithMime)
    else (Error_InvalidGltf, DataSource_empty, DataLocation_None).
Proof.
  intros uri Hsep Hmime Henc Hsize.
  set (head := String "d" (String "a" (String "t" (String "a" (String sep ""))))).
  set (tail := String.append enc (String "," payload)).
  assert (Huri4 : uri = String.append head (String.append mime (String ";" tail))).
  { reflexivity. }
  assert (Huri1 : uri = String.append (String.append head mime) (String ";" tail)).
  { now rewrite append_assoc'. }
  assert (Huri2 : uri =
            String.append (String.append head (String.append mime ";"))
              (String.append enc (String "," payload))).
  { rewrite Huri4, !append_assoc'. reflexivity. }
  assert (Huri3 : uri =
            String.append
              (String.append (String.append head (String.append mime ";")) enc)
              (String "," payload)).
  { rewrite Huri2. symmetry. apply append_assoc'. }
  assert (Hhead : size head = 5) by reflexivity.
  pose proof (size_nonneg mime) as Hm0. pose proof (size_nonneg enc) as He0.
  pose proof (size_nonneg payload) as Hp0.
  assert (Hlen : size uri = 5 + size mime + 1 + size enc + 1 + size payload).
  { rewrite Huri4. unfold tail. rewrite !size_append, !size_String, !size_append,
      !size_String, Hhead. lia. }
  assert (Hindex : find uri ";" 0 = 5 + size mime).
  { unfold find. rewrite Huri1.
    rewrite find_from_over_absent.
    - rewrite find_from_here; rewrite size_append, Hhead; lia.
    - rewrite contains_append, Hmime, orb_false_r. unfold head. simpl.
      destruct (Ascii.eqb_spec sep ";") as [E | _]; [now elim Hsep|reflexivity]. }
  assert (Hwrap : forall z, 0 <= z <= size uri -> wrap z = z).
  { intros z Hz. unfold wrap. apply Z.mod_small. unfold npos, size_t_max in Hsize. lia. }
  assert (Hend : find uri "," (wrap (find uri ";" 0 + 1)) = 5 + size mime + 1 + size enc).
  { rewrite Hindex, Hwrap by lia. unfold find. rewrite Huri2.
    rewrite find_from_before_start
      by (rewrite !size_append, Hhead; change (size ";") with 1; lia).
    rewrite (find_from_over_absent _ _ _ Henc).
    rewrite find_from_here; rewrite !size_append, Hhead;
      change (size ";") with 1; lia. }
  unfold decodeUri.
  replace (String.eqb (substr uri 0 4) "data") with true
    by (symmetry; apply String.eqb_eq;
        apply (substr_0_4_data
                 (String sep (String.append mime (String ";" tail))))).
  rewrite Hend, Hindex.
  replace (5 + size mime =? npos) with false
    by (symmetry; apply Z.eqb_neq; lia).
  replace (5 + size mime + 1 + size enc =? npos) with false
    by (symmetry; apply Z.eqb_neq; lia).
  simpl orb. cbv iota.
  rewrite !Hwrap by lia.
  replace (5 + size mime + 1 + size enc - (5 + size mime) - 1) with (size enc) by lia.
  replace (5 + size mime - 5) with (size mime) by lia.
  assert (Hencoding : substr uri (5 + size mime + 1) (size enc) = enc).
  { rewrite Huri2 at 1.
    replace (5 + size mime + 1) with (size (String.append head (String.append mime ";")))
      by (rewrite !size_append, Hhead; change (size ";") with 1; lia).
    apply substr_middle. }
  assert (Hpayload : substr uri (5 + size mime + 1 + size enc) npos = String "," payload).
  { rewrite Huri3 at 1.
    replace (5 + size mime + 1 + size enc)
      with (size (String.append (String.append head (String.append mime ";")) enc))
      by (rewrite !size_append, Hhead; change (size ";") with 1; lia).
    apply substr_tail. now rewrite <- Huri3. }
  assert (Hmimestr : substr uri 5 (size mime) = mime).
  { rewrite Huri4 at 1. rewrite <- Hhead. apply substr_middle. }
  rewrite Hencoding, Hpayload, Hmimestr.
  destruct (String.eqb enc "base64"); simpl; [|reflexivity].
  now destruct (hasBit (options g) Options_DontUseSIMD).
Qed.

Lemma substr_0_4_is_data (uri : string) :
  substr uri 0 4 = "data" -> exists rest, uri = String.append "data" rest.
Proof.
  destruct uri as [|a [|b [|c [|d rest]]]]; unfold substr, size.
  - simpl. intro H. inversion H.
  - simpl. intro H. inversion H.
  - simpl. intro H. inversion H.
  - simpl. intro H. inversion H.
  - simpl String.length.
    replace (Z.to_nat (Z.min 4 (Z.of_nat (S (S (S (S (String.length rest))))) - 0)))
      with 4%nat by lia.
    simpl. intro H. injection H as -> -> -> ->. now exists rest.
Qed.

(** X18.  Every string that does not start with the four characters
    "data" is taken as an external path: [decodeUri] never fails on it,
    performs no check of the file, and returns the base directory of the
    session followed by the string, with no bytes and no MIME type. *)
Theorem decodeUri_external_path (g : glTF) (uri : string) :
  (forall rest, uri <> String.append "data" rest) ->
  decodeUri g uri =
    (Error_None,
     mkDataSource 0 (path_append (directory g) uri) [] MimeType_None,
     DataLocation_FilePathWithByteRange).
Proof.
  intro H. unfold decodeUri.
  destruct (String.eqb_spec (substr uri 0 4) "data") as [E | _]; [|reflexivity].
  destruct (substr_0_4_is_data uri E) as [rest Hrest]. now elim (H rest).
Qed.

(** *** The asset check and the loader *)

Lemma load_document_null_iff_error l padded len dir opts :
  loader_errorCode l = Error_None ->
  (fst (load_document l padded len dir opts) = None <->
   getError (snd (load_document l padded len dir opts)) <> Error_None).
Proof.
  intro Hl. unfold load_document, getError.
  destruct (tokenize (take len padded)) as [doc|]; [|split; [discriminate|reflexivity]].
  destruct (get_object (Some doc)) as [r|]; [|split; [discriminate|reflexivity]].
  destruct (hasBit opts Options_DontRequireValidAssetMember).
  - simpl. rewrite Hl. split; [discriminate|]. intro H. now elim H.
  - destruct (checkAssetField (glTF_new r dir opts)) as [ok gltf]. destruct ok; simpl.
    + rewrite Hl. split; [discriminate|]. intro H. now elim H.
    + split; [discriminate|reflexivity].
Qed.

(** X19.  Each of the four [loadGLTF] functions returns a null session
    exactly when it leaves an error code other than none in the loader,
    whatever error the loader held before the call. *)
Theorem loadGLTF_null_iff_error (l : Loader) (opts : Options) :
  (forall path,
     fst (loadGLTF_path l path opts) = None <->
     getError (snd (loadGLTF_path l path opts)) <> Error_None) /\
  (forall path,
     fst (loadGLTF_string l path opts) = None <->
     getError (snd (loadGLTF_string l path opts)) <> Error_None) /\
  (forall input dir,
     fst (loadGLTF_bytes l input dir opts) = None <->
     getError (snd (loadGLTF_bytes l input dir opts)) <> Error_None) /\
  (forall input dir,
     fst (loadGLTF_bytes_string l input dir opts) = None <->
     getError (snd (loadGLTF_bytes_string l input dir opts)) <> Error_None).
Proof.
  assert (Hpath : forall l' path,
            fst (loadGLTF_path l' path opts) = None <->
            getError (snd (loadGLTF_path l' path opts)) <> Error_None).
  { intros l' path. unfold loadGLTF_path, checkFileExtension, readJsonFile.
    assert (Hread :
      fst (let '(readOk, data_bytes, l0) :=
             if negb (fs_exists path)
             then (false, [], mkLoader Error_NonExistentPath)
             else if Z.of_nat (length (file_bytes path)) <? 4
                  then (false, [], mkLoader Error_InvalidJson)
                  else (true,
                        (file_bytes path ++ replicate SIMDJSON_PADDING Byte.x00)%list,
                        mkLoader Error_None) in
           if negb readOk then (None, l0)
           else load_document l0 data_bytes (length data_bytes - SIMDJSON_PADDING)
                  (path_parent_path path) opts) = None <->
      getError
        (snd (let '(readOk, data_bytes, l0) :=
                if negb (fs_exists path)
                then (false, [], mkLoader Error_NonExistentPath)
                else if Z.of_nat (length (file_bytes path)) <? 4
                     then (false, [], mkLoader Error_InvalidJson)
                     else (true,
                           (file_bytes path ++ replicate SIMDJSON_PADDING Byte.x00)%list,
                           mkLoader Error_None) in
              if negb readOk then (None, l0)
              else load_document l0 data_bytes (length data_bytes - SIMDJSON_PADDING)
                     (path_parent_path path) opts)) <> Error_None).
    { destruct (negb (fs_exists path)); [split; [discriminate|reflexivity]|].
      destruct (Z.of_nat (length (file_bytes path)) <? 4);
        [split; [discriminate|reflexivity]|].
      now apply load_document_null_iff_error. }
    destruct (hasBit opts Options_IgnoreFileExtension); [exact Hread|].
    destruct (path_extension path) as [e|]; [|split; [discriminate|reflexivity]].
    destruct (negb (String.eqb e ".gltf")); [split; [discriminate|reflexivity]|].
    exact Hread. }
  assert (Hbytes : forall l' input dir,
            fst (loadGLTF_bytes l' input dir opts) = None <->
            getError (snd (loadGLTF_bytes l' input dir opts)) <> Error_None).
  { intros l' input dir. unfold loadGLTF_bytes.
    destruct (negb (fs_is_directory dir)); [split; [discriminate|reflexivity]|].
    now apply load_document_null_iff_error. }
  split; [apply Hpath|]. split; [|split; [apply Hbytes|]].
  - intro path. unfold loadGLTF_string.
    destruct (String.eqb path "" || negb (fs_exists (path_of path)));
      [split; [discriminate|reflexivity]|apply Hpath].
  - intros input dir. unfold loadGLTF_bytes_string.
    destruct (String.eqb dir "" || negb (fs_is_directory (path_of dir)));
      [split; [discriminate|reflexivity]|apply Hbytes].
Qed.


(** X21.  A session that the byte loader returns: the tokenizer was given
    exactly the input bytes, without the padding, and produced an object,
    which is the document of the session; the session has no error, an
    empty asset, the directory and the options of the call; and unless
    the asset check is switched off, the document has an "asset" object
    with a string "version".  Such a session releases its empty asset at
    once. *)
Theorem loadGLTF_bytes_session (l : Loader) (input : list Byte.byte) (dir : fs_path)
    (opts : Options) (gltf : glTF) :
  fst (loadGLTF_bytes l input dir opts) = Some gltf ->
  fs_is_directory dir = true /\
  tokenize input = Some (Object (root gltf)) /\
  gltf = glTF_new (root gltf) dir opts /\
  (hasBit opts Options_DontRequireValidAssetMember = false ->
   exists asset version,
     get_object (find_field (root gltf) "asset") = Some asset /\
     get_string (find_field asset "version") = Some version) /\
  fst (getParsedAsset gltf) = Some Asset_empty.
Proof.
  unfold loadGLTF_bytes, load_document.
  destruct (fs_is_directory dir); simpl; [|discriminate].
  rewrite take_app_length.
  destruct (tokenize input) as [doc|]; [|discriminate].
  destruct doc; simpl; try discriminate.
  destruct (hasBit opts Options_DontRequireValidAssetMember) eqn:Hopt.
  - simpl. intro H. injection H as <-. simpl. repeat split. discriminate.
  - unfold checkAssetField. simpl.
    destruct (get_object (find_field fields "asset")) as [asset|] eqn:Ha; simpl;
      [|discriminate].
    destruct (get_string (find_field asset "version")) as [version|] eqn:Hv; simpl;
      [|discriminate].
    intro H. injection H as <-. simpl. repeat split. eauto.
Qed.

(** X22.  The path loader hands the tokenizer exactly the bytes of the
    file: the padding it appends is cut off again.  It refuses a file of
    fewer than four bytes with the invalid-JSON code, and a session it
    returns has the parent path of the file as base directory, the
    options of the call, no error and an empty asset. *)
Theorem loadGLTF_path_session (l : Loader) (path : fs_path) (opts : Options) :
  (fs_exists path = true ->
   (length (file_bytes path) < 4)%nat ->
   (hasBit opts Options_IgnoreFileExtension = true \/
    path_extension path = Some ".gltf") ->
   loadGLTF_path l path opts = (None, mkLoader Error_InvalidJson)) /\
  (forall gltf,
     fst (loadGLTF_path l path opts) = Some gltf ->
     fs_exists path = true /\
     tokenize (file_bytes path) = Some (Object (root gltf)) /\
     gltf = glTF_new (root gltf) (path_parent_path path) opts).
Proof.
  assert (Htake : take (length (file_bytes path ++ replicate SIMDJSON_PADDING Byte.x00)
                        - SIMDJSON_PADDING)
                    (file_bytes path ++ replicate SIMDJSON_PADDING Byte.x00)
                  = file_bytes path).
  { rewrite length_app, length_replicate.
    replace (length (file_bytes path) + SIMDJSON_PADDING - SIMDJSON_PADDING)%nat
      with (length (file_bytes path)) by lia.
    apply take_app_length. }
  split.
  - intros Hex Hshort Hext. unfold loadGLTF_path, checkFileExtension, readJsonFile.
    rewrite Hex. simpl.
    replace (Z.of_nat (length (file_bytes path)) <? 4) with true
      by (symmetry; apply Z.ltb_lt; lia).
    destruct Hext as [-> | ->]; [reflexivity|].
    destruct (hasBit opts Options_IgnoreFileExtension); reflexivity.
  - intros gltf. unfold loadGLTF_path, checkFileExtension, readJsonFile.
    assert (Hdoc : forall l0,
      fst (load_document l0 (file_bytes path ++ replicate SIMDJSON_PADDING Byte.x00)
             (length (file_bytes path ++ replicate SIMDJSON_PADDING Byte.x00)
              - SIMDJSON_PADDING) (path_parent_path path) opts) = Some gltf ->
      tokenize (file_bytes path) = Some (Object (root gltf)) /\
      gltf = glTF_new (root gltf) (path_parent_path path) opts).
    { intro l0. unfold load_document. rewrite Htake.
      destruct (tokenize (file_bytes path)) as [doc|]; [|discriminate].
      destruct doc; simpl; try discriminate.
      destruct (hasBit opts Options_DontRequireValidAssetMember).
      - simpl. intro H. injection H as <-. now split.
      - unfold checkAssetField. simpl.
        destruct (get_object (find_field fields "asset")) as [asset|]; simpl;
          [|discriminate].
        destruct (get_string (find_field asset "version")); simpl; [|discriminate].
        intro H. injection H as <-. now split. }
    destruct (hasBit opts Options_IgnoreFileExtension);
      [|destruct (path_extension path) as [e|]; [|discriminate];
        destruct (negb (String.eqb e ".gltf")); [discriminate|]];
      (destruct (fs_exists path); simpl; [|discriminate];
       destruct (Z.of_nat (length (file_bytes path)) <? 4); [discriminate|];
       simpl; intro H; split; [reflexivity|]; exact (Hdoc _ H)).
Qed.

End Engine.

(** C1.  What [parseNodes] does with a "matrix" of the sixteen numbers
    1, ..., 16 and with one of the fifteen numbers 1, ..., 15.  Both nodes
    parse with the matrix flag set.  The index of the loop is never
    advanced, so every value is written to entry 0: the sixteen-entry
    matrix ends as 16 followed by fifteen zeros, not as the sixteen values
    in order. *)
Theorem parseNodes_matrix_sixteen_and_fifteen :
  let entries := [1; 2; 3; 4; 5; 6; 7; 8; 9; 10; 11; 12; 13; 14; 15; 16] in
  let single := fun z => static_cast_float (double_of_Z z) in
  (exists node,
     parseNodes_element (Object [("matrix", Array (map Integer entries))]) = Some node /\
     hasMatrix node = true /\
     matrix node = single 16 :: replicate 15 (S754_zero false) /\
     matrix node <> map single entries) /\
  (exists node,
     parseNodes_element (Object [("matrix", Array (map Integer (firstn 15 entries)))])
       = Some node /\
     hasMatrix node = true).
Proof.
  split.
  - eexists. split; [reflexivity|]. vm_compute. repeat split. discriminate.
  - eexists. split; reflexivity.
Qed.

(** ** Further properties outside the collaborators *)

(** *** The MIME classifier *)

(** X1.  [getMimeTypeFromString] is an exact match on six strings: each
    MIME type is the answer for one string only, and every other string,
    whatever its case or its parameters, is classified as none. *)
Theorem getMimeTypeFromString_exact (mime : string) :
  (getMimeTypeFromString mime = MimeType_JPEG <-> mime = "image/jpeg") /\
  (getMimeTypeFromString mime = MimeType_PNG <-> mime = "image/png") /\
  (getMimeTypeFromString mime = MimeType_KTX2 <-> mime = "image/ktx2") /\
  (getMimeTypeFromString mime = MimeType_DDS <-> mime = "image/vnd-ms.dds") /\
  (getMimeTypeFromString mime = MimeType_GltfBuffer <-> mime = "application/gltf-buffer") /\
  (getMimeTypeFromString mime = MimeType_OctetStream <-> mime = "application/octet-stream") /\
  (getMimeTypeFromString mime = MimeType_None <->
     ~ In mime ["image/jpeg"; "image/png"; "image/ktx2"; "image/vnd-ms.dds";
                "application/gltf-buffer"; "application/octet-stream"]).
Proof.
  unfold getMimeTypeFromString, mimeTypeJpeg, mimeTypePng, mimeTypeKtx, mimeTypeDds,
    mimeTypeGltfBuffer, mimeTypeOctetStream.
  destruct (String.eqb_spec mime "image/jpeg") as [-> | H1];
    [repeat split; simpl; intros; try discriminate; try reflexivity; tauto|].
  destruct (String.eqb_spec mime "image/png") as [-> | H2];
    [repeat split; simpl; intros; try discriminate; try reflexivity; tauto|].
  destruct (String.eqb_spec mime "image/ktx2") as [-> | H3];
    [repeat split; simpl; intros; try discriminate; try reflexivity; tauto|].
  destruct (String.eqb_spec mime "image/vnd-ms.dds") as [-> | H4];
    [repeat split; simpl; intros; try discriminate; try reflexivity; tauto|].
  destruct (String.eqb_spec mime "application/gltf-buffer") as [-> | H5];
    [repeat split; simpl; intros; try discriminate; try reflexivity; tauto|].
  destruct (String.eqb_spec mime "application/octet-stream") as [-> | H6];
    [repeat split; simpl; intros; try discriminate; try reflexivity; tauto|].
  repeat split; simpl; intros; try discriminate; try congruence; try tauto.
  intuition congruence.
Qed.

(** ** The engine on concrete documents *)

(** *** C5 *)

(** C5, counterexample.  The field "buffers" is present and holds a number:
    the helper reports (false, no error), and [parseBuffers] records no
    error, so that the asset can still be retrieved. *)
Lemma iterateOverArray_non_array_reports_nothing :
  let doc := [("buffers", Integer 5)] in
  let g := session doc Options_None in
  has_field doc "buffers" = true /\
  get_array (find_field doc "buffers") = None /\
  iterateOverArray
    (parseBuffers_callback characters_handed_over characters_handed_over)
    doc "buffers" g = ((false, Error_None), g) /\
  parseBuffers characters_handed_over characters_handed_over g = (Error_None, g) /\
  fst (getParsedAsset g) = Some Asset_empty.
Proof. repeat split. Qed.

Lemma iterateOverArray_contract_witness :
  let cb := parseScenes_node_callback in
  let run :=
    run_parser characters_handed_over characters_handed_over
      component_type_table accessor_type_table Image_unset Texture_unset Mesh_unset in
  let g := session [("buffers", Integer 5)] Options_None in
  iterateOverArray cb [("nodes", Text "none")] "nodes" [] = ((false, Error_None), []) /\
  iterateOverArray cb [("nodes", Array [Integer 1; Integer 2])] "nodes" []
    = ((true, Error_None), [1; 2]) /\
  iterateOverArray cb [("nodes", Array [Integer 1; Text "x"; Integer 3])] "nodes" []
    = ((false, Error_InvalidGltf), [1]) /\
  (run Buffers g = (Error_None, g) /\
   fst (getParsedAsset (snd (run Buffers g))) = fst (getParsedAsset g)).
Proof.
  intros cb run g.
  pose proof (iterateOverArray_contract characters_handed_over characters_handed_over
                component_type_table accessor_type_table
                Image_unset Texture_unset Mesh_unset cb) as H.
  split; [|split; [|split]].
  - apply (proj1 (H [("nodes", Text "none")] "nodes" [])). reflexivity.
  - apply (proj1 (proj2 (H [("nodes", Array [Integer 1; Integer 2])] "nodes" []))
             [Integer 1; Integer 2] [1; 2] eq_refl).
    apply (callback_succeeds_cons cb (Integer 1) [Integer 2] [] [1] [1; 2] eq_refl).
    apply (callback_succeeds_cons cb (Integer 2) [] [1] [1; 2] [1; 2] eq_refl).
    constructor.
  - apply (proj1 (proj2 (proj2 (H [("nodes", Array [Integer 1; Text "x"; Integer 3])]
             "nodes" [])))
             [Integer 1] (Text "x") [Integer 3] [1] [1] eq_refl).
    + apply (callback_succeeds_cons cb (Integer 1) [] [] [1] [1] eq_refl). constructor.
    + reflexivity.
  - apply (proj2 (proj2 (proj2 (proj2 (H [] "nodes" [])))) Buffers g). reflexivity.
Defined.

(** *** C6 *)

Lemma getParsedAsset_contract_witness :
  let g := session [] Options_None in
  let g_failed := set_errorCode Error_InvalidGltf g in
  fst (getParsedAsset g) = Some Asset_empty /\
  fst (getParsedAsset g_failed) = None /\
  fst (getParsedAsset (snd (getParsedAsset g))) = None.
Proof.
  intros g g_failed. split; [|split].
  - apply (proj1 (getParsedAsset_contract g Asset_empty eq_refl)). reflexivity.
  - apply (proj1 (proj2 (getParsedAsset_contract g_failed Asset_empty eq_refl))).
    discriminate.
  - apply (proj2 (proj2 (getParsedAsset_contract g Asset_empty eq_refl)) eq_refl 0%nat).
Defined.

(** *** C9 *)

Lemma errorCode_monotone_witness :
  let run :=
    run_parser characters_handed_over characters_handed_over
      component_type_table accessor_type_table Image_unset Texture_unset Mesh_unset in
  let doc := [("buffers", Array [Integer 1]); ("scenes", Array [Object []])] in
  let g := snd (run Buffers (session doc Options_None)) in
  errorCode g = Error_InvalidGltf /\
  fst (run Scenes g) <> Error_None /\
  errorCode (snd (run Scenes g)) <> Error_None /\
  scenes <$> parsedAsset (snd (run Scenes g)) = Some [mkScene [] ""].
Proof.
  intros run doc g. split; [reflexivity|].
  pose proof (errorCode_monotone characters_handed_over characters_handed_over
                component_type_table accessor_type_table
                Image_unset Texture_unset Mesh_unset Scenes g) as H.
  destruct H as (H1 & H2 & _ & H4); [discriminate|].
  split; [exact H1|]. split; [exact H2|].
  unfold run. rewrite H4. reflexivity.
Defined.

(** *** C10 *)

Lemma decodeUri_data_prefix_witness :
  decodeUri characters_handed_over characters_handed_over
    (session [] Options_None) "database/model.bin"
  = (Error_InvalidGltf, DataSource_empty, DataLocation_None).
Proof.
  apply (decodeUri_data_prefix characters_handed_over characters_handed_over
           (session [] Options_None) "database/model.bin" "base/model.bin" eq_refl).
  left. reflexivity.
Defined.

(** *** C3 *)

(** C3, counterexample.  Both options are enabled, the basis-universal key
    holds an object without "source" and the DDS key supplies source 5.
    The resolver does not go on to the DDS candidate: it fails, and
    [parseTextures] reports invalid glTF. *)
Lemma object_without_source_fails_the_texture :
  let extensions :=
    [("KHR_texture_basisu", Object []);
     ("MSFT_texture_dds", Object [("source", Integer 5)])] in
  let textureObject := [("source", Integer 0); ("extensions", Object extensions)] in
  let g := session [("textures", Array [Object textureObject])] both_extensions in
  hasBit (options g) Options_LoadKTXExtension = true /\
  get_object (find_field extensions "KHR_texture_basisu") = Some [] /\
  find_field [] "source" = None /\
  getImageIndexForExtension extensions "MSFT_texture_dds" = (false, false, 5) /\
  parseTextureExtensions Texture_unset extensions both_extensions = (false, Texture_unset) /\
  parseTextures_element Texture_unset g (Object textureObject) = None /\
  fst (parseTextures Texture_unset g) = Error_InvalidGltf.
Proof. repeat split. Qed.

Lemma parseTextureExtensions_object_without_source_witness :
  let extensions := [("MSFT_texture_dds", Object [("name", Text "dds")])] in
  let textureObject := [("source", Integer 0); ("extensions", Object extensions)] in
  let g := session [("textures", Array [Object textureObject])] both_extensions in
  parseTextureExtensions Texture_unset extensions both_extensions = (false, Texture_unset) /\
  parseTextures_element Texture_unset g (Object textureObject) = None /\
  fst (parseTextures Texture_unset g) = Error_InvalidGltf.
Proof.
  intros extensions textureObject g.
  assert (H : (hasBit both_extensions Options_LoadKTXExtension = true /\
               lacks_source extensions "KHR_texture_basisu") \/
              ((hasBit both_extensions Options_LoadKTXExtension = false \/
                get_object (find_field extensions "KHR_texture_basisu") = None) /\
               hasBit both_extensions Options_LoadDDSExtension = true /\
               lacks_source extensions "MSFT_texture_dds")).
  { right. split; [right; reflexivity|]. split; [reflexivity|].
    exists [("name", Text "dds")]. split; reflexivity. }
  destruct (parseTextureExtensions_object_without_source
              Texture_unset Texture_unset extensions both_extensions H) as [H1 H2].
  destruct (H2 g textureObject eq_refl eq_refl) as [H3 H4].
  split; [exact H1|]. split; [exact H3|].
  apply (H4 [Object textureObject] eq_refl). left. reflexivity.
Defined.

(** *** C4 *)

(** C4, counterexample.  Both options are enabled and the basis-universal
    key holds a number, not an object; the DDS key supplies source 5.
    Texture parsing does not fail: the texture is appended with image
    index 5 and no error is recorded. *)
Lemma non_object_extension_does_not_fail_the_texture :
  let extensions :=
    [("KHR_texture_basisu", Integer 7);
     ("MSFT_texture_dds", Object [("source", Integer 5)])] in
  let textureObject := [("source", Integer 0); ("extensions", Object extensions)] in
  let g := session [("textures", Array [Object textureObject])] both_extensions in
  hasBit (options g) Options_LoadKTXExtension = true /\
  find_field extensions "KHR_texture_basisu" = Some (Integer 7) /\
  get_object (Some (Integer 7)) = None /\
  fst (parseTextures Texture_unset g) = Error_None /\
  textures <$> parsedAsset (snd (parseTextures Texture_unset g))
    = Some [mkTexture 5 0 size_t_max ""].
Proof. repeat split. Qed.

Lemma parseTextureExtensions_non_object_is_absent_witness :
  let extensions :=
    [("KHR_texture_basisu", Text "ktx");
     ("MSFT_texture_dds", Object [("source", Integer 3)])] in
  let textureObject := [("source", Integer 0); ("extensions", Object extensions)] in
  let g := session [("textures", Array [Object textureObject])] both_extensions in
  let g_ktx := session [("textures", Array [Object textureObject])] Options_LoadKTXExtension in
  getImageIndexForExtension extensions "KHR_texture_basisu" = (false, true, 0) /\
  parseTextureExtensions Texture_unset extensions both_extensions =
    parseTextureExtensions Texture_unset
      [("MSFT_texture_dds", Object [("source", Integer 3)])] both_extensions /\
  parseTextureExtensions Texture_unset extensions both_extensions =
    (true, set_imageIndex 3 Texture_unset) /\
  parseTextureExtensions Texture_unset extensions Options_LoadKTXExtension =
    (false, Texture_unset) /\
  (exists tex,
     parseTextures_element Texture_unset g (Object textureObject) = Some tex /\
     imageIndex tex = 3 /\
     parseTextures_callback Texture_unset (Object textureObject) g =
       (true, update_asset (emplace_texture tex) g)) /\
  (fst (parseTextures Texture_unset g) = Error_None /\
   errorCode (snd (parseTextures Texture_unset g)) = Error_None) /\
  parseTextures_element Texture_unset g_ktx (Object textureObject) = None /\
  fst (parseTextures Texture_unset g_ktx) = Error_InvalidGltf.
Proof.
  intros extensions textureObject g g_ktx.
  destruct (parseTextureExtensions_non_object_is_absent Texture_unset Texture_unset
              extensions both_extensions "KHR_texture_basisu" (Text "ktx")
              eq_refl eq_refl)
    as (H1 & H2 & H3 & _ & H5).
  destruct (parseTextureExtensions_non_object_is_absent Texture_unset Texture_unset
              extensions Options_LoadKTXExtension "KHR_texture_basisu" (Text "ktx")
              eq_refl eq_refl)
    as (_ & _ & _ & H4 & H6).
  destruct (H5 g textureObject "MSFT_texture_dds" Options_LoadDDSExtension
              eq_refl eq_refl (or_introl (conj eq_refl (conj eq_refl eq_refl))))
    as [Hyes _].
  destruct (Hyes [("source", Integer 3)] 3 eq_refl eq_refl eq_refl) as [Helt Hrun].
  destruct (H6 g_ktx textureObject "MSFT_texture_dds" Options_LoadDDSExtension
              eq_refl eq_refl (or_introl (conj eq_refl (conj eq_refl eq_refl))))
    as [_ Hno].
  destruct Hno as [Hnone Hfail].
  { intros o n Hbit. discriminate Hbit. }
  split; [exact H1|]. split; [exact H2|]. split.
  { apply (H3 eq_refl [("source", Integer 3)] 3); reflexivity. }
  split.
  { apply (H4 eq_refl). left. reflexivity. }
  split; [exact Helt|]. split; [exact (Hrun eq_refl)|]. split; [exact Hnone|].
  apply (Hfail [Object textureObject] eq_refl). left. reflexivity.
Defined.

(** *** C7 *)


(** *** C8 *)

Lemma parseTextures_extension_source_witness :
  let textureObject :=
    [("source", Integer 0);
     ("extensions", Object [("MSFT_texture_dds", Object [("source", Integer 5)])])] in
  let g := session [("textures", Array [Object textureObject])] both_extensions in
  exists texture,
    parseTextures_element Texture_unset g (Object textureObject) = Some texture /\
    imageIndex texture = 5 /\ fallbackImageIndex texture = 0 /\
    parseTextures_callback Texture_unset (Object textureObject) g =
      (true, update_asset (emplace_texture texture) g).
Proof.
  intros textureObject g.
  destruct (parseTextures_extension_source Texture_unset g textureObject eq_refl eq_refl)
    as (H & _).
  apply (H [("source", Integer 5)]); reflexivity.
Defined.

(** ** Further properties on concrete documents *)

Lemma run_parser_without_elements_witness :
  let run :=
    run_parser characters_handed_over characters_handed_over
      component_type_table accessor_type_table Image_unset Texture_unset Mesh_unset in
  let g := session [("nodes", Text "none"); ("scenes", Array [])] Options_None in
  run Nodes g = (Error_None, g) /\
  run Scenes g = (Error_None, g) /\
  run Meshes g = (Error_None, g).
Proof.
  intros run g. split; [|split];
    apply (run_parser_without_elements characters_handed_over characters_handed_over
             component_type_table accessor_type_table
             Image_unset Texture_unset Mesh_unset);
    [left|right|left]; reflexivity.
Defined.

Lemma run_parser_frame_witness :
  let g :=
    session [("nodes", Array [Object []; Object []]); ("scenes", Array [Integer 1])]
      Options_None in
  let run :=
    run_parser characters_handed_over characters_handed_over
      component_type_table accessor_type_table Image_unset Texture_unset Mesh_unset in
  (root (snd (run Nodes g)) = root g /\
   exists a', parsedAsset (snd (run Nodes g)) = Some a' /\
              appended_by Nodes Asset_empty a') /\
  (options (snd (run Scenes g)) = options g /\
   exists a', parsedAsset (snd (run Scenes g)) = Some a' /\
              appended_by Scenes Asset_empty a').
Proof.
  intros g run. split.
  - destruct (run_parser_frame characters_handed_over characters_handed_over
                component_type_table accessor_type_table
                Image_unset Texture_unset Mesh_unset Nodes g Asset_empty eq_refl)
      as (H1 & _ & _ & H4).
    split; assumption.
  - destruct (run_parser_frame characters_handed_over characters_handed_over
                component_type_table accessor_type_table
                Image_unset Texture_unset Mesh_unset Scenes g Asset_empty eq_refl)
      as (_ & _ & H3 & H4).
    split; assumption.
Defined.

Lemma getParsedAsset_after_parsers_witness :
  let runs :=
    run_parsers characters_handed_over characters_handed_over
      component_type_table accessor_type_table Image_unset Texture_unset Mesh_unset in
  let g :=
    session [("nodes", Array [Object []]); ("scenes", Array [Integer 1])] Options_None in
  fst (getParsedAsset (runs [Nodes; Scenes; Buffers] g)) = None /\
  exists a, fst (getParsedAsset (runs [Nodes; Buffers] g)) = Some a.
Proof.
  intros runs g. split.
  - apply (proj2 (proj1 (getParsedAsset_after_parsers
             characters_handed_over characters_handed_over
             component_type_table accessor_type_table
             Image_unset Texture_unset Mesh_unset
             [Nodes; Scenes; Buffers] g Asset_empty eq_refl eq_refl))).
    apply Exists_cons_tl, Exists_cons_hd. discriminate.
  - apply (proj2 (getParsedAsset_after_parsers
             characters_handed_over characters_handed_over
             component_type_table accessor_type_table
             Image_unset Texture_unset Mesh_unset
             [Nodes; Buffers] g Asset_empty eq_refl eq_refl)).
    repeat constructor.
Defined.

Lemma parseBufferViews_first_failure_witness :
  let view := Object [("buffer", Integer 0); ("byteLength", Integer 8)] in
  let g :=
    session [("bufferViews", Array [view; Integer 3; view])] Options_None in
  fst (parseBufferViews g) = Error_InvalidGltf /\
  bufferViews <$> parsedAsset (snd (parseBufferViews g)) = Some [mkBufferView 0 0 8 0 ""] /\
  fst (getParsedAsset (snd (parseBufferViews g))) = None.
Proof.
  intros view g.
  apply (parseBufferViews_first_failure g [view] [view] (Integer 3)
           [mkBufferView 0 0 8 0 ""] eq_refl).
  - constructor; [reflexivity|constructor].
  - reflexivity.
Defined.

Lemma parseNodes_fails_only_on_non_objects_witness :
  let g := session [("nodes", Array [Object [("mesh", Text "x")]; Object []])] Options_None in
  let g' := session [("nodes", Array [Object []; Integer 1])] Options_None in
  (exists parsed,
     Forall2 (fun v n => parseNodes_element v = Some n)
       [Object [("mesh", Text "x")]; Object []] parsed /\
     fst (parseNodes g) = Error_None /\
     errorCode (snd (parseNodes g)) = Error_None /\
     nodes <$> parsedAsset (snd (parseNodes g)) = Some ([] ++ parsed)%list) /\
  fst (parseNodes g') = Error_InvalidGltf.
Proof.
  intros g g'. split.
  - apply (proj1 (parseNodes_fails_only_on_non_objects g _ eq_refl)). reflexivity.
  - apply (proj2 (parseNodes_fails_only_on_non_objects g' _ eq_refl)). reflexivity.
Defined.

Lemma element_parsers_append_in_order_witness :
  let accessor name :=
    Object [("componentType", Integer 5126); ("type", Text name); ("count", Integer 8)] in
  let g :=
    session [("accessors", Array [accessor "VEC3"; accessor "SCALAR"]);
             ("textures", Array [Object [("source", Integer 4)]])] Options_None in
  (fst (parseAccessors component_type_table accessor_type_table g) = Error_None /\
   accessors <$> parsedAsset (snd (parseAccessors component_type_table accessor_type_table g))
     = Some [mkAccessor 0 8 AccessorType_Vec3 ComponentType_Float false size_t_max "";
             mkAccessor 0 8 AccessorType_Scalar ComponentType_Float false size_t_max ""]) /\
  (fst (parseTextures Texture_unset g) = Error_None /\
   textures <$> parsedAsset (snd (parseTextures Texture_unset g))
     = Some [mkTexture 4 size_t_max size_t_max ""]).
Proof.
  intros accessor g. split.
  - destruct (element_parsers_append_in_order characters_handed_over characters_handed_over
                component_type_table accessor_type_table Image_unset Texture_unset
                g [accessor "VEC3"; accessor "SCALAR"]) as (_ & _ & H & _).
    apply (H [mkAccessor 0 8 AccessorType_Vec3 ComponentType_Float false size_t_max "";
              mkAccessor 0 8 AccessorType_Scalar ComponentType_Float false size_t_max ""]
             eq_refl).
    repeat constructor.
  - destruct (element_parsers_append_in_order characters_handed_over characters_handed_over
                component_type_table accessor_type_table Image_unset Texture_unset
                g [Object [("source", Integer 4)]]) as (_ & _ & _ & _ & H).
    apply (H [mkTexture 4 size_t_max size_t_max ""] eq_refl).
    repeat constructor.
Defined.

Lemma parseScenes_callback_node_indices_witness :
  let g := session [] Options_None in
  parseScenes_callback
    (Object [("name", Text "main"); ("nodes", Array [Integer 2; Integer 0; Integer 1])]) g
    = (true, update_asset (emplace_scene (mkScene [2; 0; 1] "main")) g) /\
  parseScenes_callback (Object [("name", Text "empty")]) g
    = (true, update_asset (emplace_scene (mkScene [] "empty")) g) /\
  parseScenes_callback (Object [("nodes", Array [Integer 2; Integer (-1)])]) g
    = (false, set_errorCode Error_InvalidGltf g).
Proof.
  intro g. split; [|split].
  - apply (proj1 (parseScenes_callback_node_indices g
             [("name", Text "main"); ("nodes", Array [Integer 2; Integer 0; Integer 1])])
             [2; 0; 1] eq_refl).
    repeat constructor; discriminate.
  - apply (proj1 (proj2 (parseScenes_callback_node_indices g [("name", Text "empty")]))).
    reflexivity.
  - apply (proj2 (proj2 (parseScenes_callback_node_indices g
             [("nodes", Array [Integer 2; Integer (-1)])]))
             [Integer 2; Integer (-1)] (Integer (-1)) eq_refl).
    + right. left. reflexivity.
    + reflexivity.
Defined.

Lemma parseBuffers_element_requires_uri_witness :
  let g := session [] Options_None in
  let v := Object [("byteLength", Integer 4); ("uri", Text "mesh.bin")] in
  exists o uri,
    v = Object o /\
    get_uint64 (find_field o "byteLength") = Some 4 /\
    get_string (find_field o "uri") = Some uri /\
    decodeUri characters_handed_over characters_handed_over g uri =
      (Error_None, mkDataSource 0 (path_append path_empty "mesh.bin") [] MimeType_None,
       DataLocation_FilePathWithByteRange) /\
    DataLocation_FilePathWithByteRange <> DataLocation_None.
Proof.
  intros g v.
  apply (parseBuffers_element_requires_uri characters_handed_over characters_handed_over
           g v
           (mkBuffer 4 DataLocation_FilePathWithByteRange
              (mkDataSource 0 (path_append path_empty "mesh.bin") [] MimeType_None) "")).
  reflexivity.
Defined.

Lemma parseBuffers_keeps_buffers_resolved_witness :
  let g :=
    session [("buffers",
              Array [Object [("byteLength", Integer 4); ("uri", Text "mesh.bin")];
                     Object [("byteLength", Integer 4)]])] Options_None in
  exists a,
    parsedAsset (snd (parseBuffers characters_handed_over characters_handed_over g))
      = Some a /\
    Forall (fun b => buffer_location b <> DataLocation_None) (buffers a).
Proof.
  intro g.
  apply (parseBuffers_keeps_buffers_resolved characters_handed_over characters_handed_over
           g Asset_empty eq_refl).
  constructor.
Defined.

Lemma parseImages_element_requires_uri_witness :
  let g := session [] Options_None in
  let v := Object [("uri", Text "tex.png")] in
  exists o uri,
    v = Object o /\
    get_string (find_field o "uri") = Some uri /\
    find_field o "bufferView" = None /\
    fst (fst (decodeUri characters_handed_over characters_handed_over g uri)) = Error_None /\
    DataLocation_FilePathWithByteRange =
      snd (decodeUri characters_handed_over characters_handed_over g uri) /\
    DataLocation_FilePathWithByteRange <> DataLocation_None.
Proof.
  intros g v.
  apply (parseImages_element_requires_uri characters_handed_over characters_handed_over
           Image_unset g v
           (mkImage DataLocation_FilePathWithByteRange
              (mkDataSource 0 (path_append path_empty "tex.png") [] MimeType_None) "")
           eq_refl).
  reflexivity.
Defined.

Lemma parseTextures_extensions_need_a_candidate_witness :
  let textureObject :=
    [("source", Integer 0);
     ("extensions", Object [("EXT_texture_webp", Object [("source", Integer 1)])])] in
  let g := session [] both_extensions in
  parseTextures_element Texture_unset g (Object textureObject) = None /\
  fst (parseTextures_callback Texture_unset (Object textureObject) g) = false.
Proof.
  intros textureObject g.
  apply (parseTextures_extensions_need_a_candidate Texture_unset g textureObject
           [("EXT_texture_webp", Object [("source", Integer 1)])] eq_refl);
    right; reflexivity.
Defined.

Lemma parse_attributes_lookup_witness :
  let fields := [("POSITION", Integer 0); ("NORMAL", Integer 1); ("POSITION", Integer 2)] in
  let m : gmap string Z := <["POSITION":=2]> (<["NORMAL":=1]> (<["POSITION":=0]> ∅)) in
  m !! "POSITION" = Some 2 /\
  m !! "NORMAL" = Some 1 /\
  m !! "TANGENT" = None /\
  parse_attributes [("POSITION", Integer 0); ("NORMAL", Text "one")] ∅ = None.
Proof.
  intros fields m.
  pose proof (proj1 (parse_attributes_lookup fields ∅) m eq_refl) as H.
  split; [exact (H "POSITION")|]. split; [exact (H "NORMAL")|].
  split; [exact (H "TANGENT")|].
  apply (proj2 (parse_attributes_lookup [("POSITION", Integer 0); ("NORMAL", Text "one")] ∅)).
  exists "NORMAL", (Text "one"). split; [right; left; reflexivity|reflexivity].
Defined.

Lemma parseMeshes_callback_primitives_witness :
  let g := session [] Options_None in
  parseMeshes_callback Mesh_unset (Object [("name", Text "m")]) g
    = (true, update_asset (emplace_mesh (mkMesh [] "m")) g) /\
  parseMeshes_callback Mesh_unset
    (Object [("primitives", Array [Object [("attributes", Object [])]])]) g
    = (true, update_asset
               (emplace_mesh (mkMesh [mkPrimitive ∅ 4 size_t_max size_t_max] "")) g) /\
  parseMeshes_callback Mesh_unset (Object [("primitives", Array [Object []])]) g
    = (false, set_errorCode Error_InvalidGltf g).
Proof.
  intro g. split; [|split].
  - apply (proj1 (parseMeshes_callback_primitives Mesh_unset g [("name", Text "m")])).
    reflexivity.
  - apply (proj1 (proj2 (parseMeshes_callback_primitives Mesh_unset g
             [("primitives", Array [Object [("attributes", Object [])]])]))
             [Object [("attributes", Object [])]]
             [mkPrimitive ∅ 4 size_t_max size_t_max] eq_refl).
    repeat constructor.
  - apply (proj2 (proj2 (parseMeshes_callback_primitives Mesh_unset g
             [("primitives", Array [Object []])]))
             [Object []] (Object []) eq_refl); [left|]; reflexivity.
Defined.

Lemma decodeUri_data_uri_witness :
  let g := session [] Options_None in
  decodeUri characters_handed_over characters_handed_over g "data:image/png;base64,QUJD"
    = (Error_None,
       mkDataSource 0 path_empty (characters_handed_over ",QUJD") MimeType_PNG,
       DataLocation_VectorWithMime) /\
  decodeUri characters_handed_over characters_handed_over g "data:image/png;base16,4142"
    = (Error_InvalidGltf, DataSource_empty, DataLocation_None).
Proof.
  intro g. split.
  - apply (decodeUri_data_uri characters_handed_over characters_handed_over g
             ":" "image/png" "base64" "QUJD");
      [discriminate|reflexivity|reflexivity|apply Z.leb_le; reflexivity].
  - apply (decodeUri_data_uri characters_handed_over characters_handed_over g
             ":" "image/png" "base16" "4142");
      [discriminate|reflexivity|reflexivity|apply Z.leb_le; reflexivity].
Defined.

Lemma decodeUri_external_path_witness :
  decodeUri characters_handed_over characters_handed_over
    (glTF_new [] (path_of "assets") Options_None) "model.bin"
  = (Error_None,
     mkDataSource 0 (path_append (path_of "assets") "model.bin") [] MimeType_None,
     DataLocation_FilePathWithByteRange).
Proof.
  apply (decodeUri_external_path characters_handed_over characters_handed_over
           (glTF_new [] (path_of "assets") Options_None) "model.bin").
  intros rest H. cbv [String.append] in H. discriminate H.
Defined.


Lemma loadGLTF_bytes_session_witness :
  let input := [Byte.x7b; Byte.x20; Byte.x7d] in
  let gltf :=
    glTF_new [("asset", Object [("version", Text "2.0")])] (path_of "assets") Options_None in
  example_is_directory (path_of "assets") = true /\
  example_tokenize input = Some (Object (root gltf)) /\
  gltf = glTF_new (root gltf) (path_of "assets") Options_None /\
  (hasBit Options_None Options_DontRequireValidAssetMember = false ->
   exists asset version,
     get_object (find_field (root gltf) "asset") = Some asset /\
     get_string (find_field asset "version") = Some version) /\
  fst (getParsedAsset gltf) = Some Asset_empty.
Proof.
  intros input gltf.
  apply (loadGLTF_bytes_session example_is_directory 64 example_tokenize
           (mkLoader Error_InvalidJson) input (path_of "assets") Options_None gltf).
  reflexivity.
Defined.

Lemma loadGLTF_path_session_witness :
  let load :=
    loadGLTF_path example_exists example_extension example_parent_path example_file_bytes
      64 example_tokenize (mkLoader Error_None) in
  load (path_of "tiny.gltf") Options_None = (None, mkLoader Error_InvalidJson) /\
  (example_exists (path_of "scene.gltf") = true /\
   example_tokenize (example_file_bytes (path_of "scene.gltf"))
     = Some (Object [("asset", Object [("version", Text "2.0")])]) /\
   glTF_new [("asset", Object [("version", Text "2.0")])] path_empty Options_None
     = glTF_new [("asset", Object [("version", Text "2.0")])]
         (example_parent_path (path_of "scene.gltf")) Options_None).
Proof.
  intro load. split.
  - apply (proj1 (loadGLTF_path_session example_exists example_extension
                    example_parent_path example_file_bytes 64 example_tokenize
                    (mkLoader Error_None) (path_of "tiny.gltf") Options_None)).
    + reflexivity.
    + simpl. lia.
    + right. reflexivity.
  - apply (proj2 (loadGLTF_path_session example_exists example_extension
                    example_parent_path example_file_bytes 64 example_tokenize
                    (mkLoader Error_None) (path_of "scene.gltf") Options_None)
             (glTF_new [("asset", Object [("version", Text "2.0")])] path_empty
                Options_None)).
    reflexivity.
Defined.
